(** * node-calibre: the [Calibre] command facade of src/Calibre.ts

    A shallow embedding of the class [Calibre]: its constructor, the
    promise-wrapped [exec], the command serializer inside [run], and
    [ebookConvert].  JavaScript objects that the code passes to
    [Object.assign] live in a store of mutable objects, so that the
    statements about what a call leaves untouched are statements about
    that store. *)

From Stdlib Require Import ZArith Ascii String DecimalString.
From stdpp Require Import base option list strings gmap.

Local Open Scope string_scope.
Local Open Scope list_scope.
Set Warnings "-register-all".

(** ** Strings

    A JavaScript string is modelled by [string], one [ascii] per code
    unit (the code units below 256); [String.length] is the [length]
    property. *)

Module Chars.
(** The double quote, code 34. *)
Definition dquote : ascii := ascii_of_nat 34.
(** The backslash, code 92. *)
Definition backslash : ascii := ascii_of_nat 92.
End Chars.

(** [Array.prototype.join] on an array of strings. *)
Fixpoint join (sep : string) (xs : list string) : string :=
  match xs with
  | [] => EmptyString
  | [x] => x
  | x :: rest => x +:+ sep +:+ join sep rest
  end.

(** [String.prototype.startsWith]. *)
Fixpoint startsWith (s pre : string) {struct pre} : bool :=
  match pre, s with
  | EmptyString, _ => true
  | String _ _, EmptyString => false
  | String a pre', String b s' => if decide (a = b) then startsWith s' pre' else false
  end.

(** [String.prototype.includes]: [pat] occurs in [s] as a substring. *)
Fixpoint includes (s pat : string) : bool :=
  startsWith s pat ||
  match s with
  | EmptyString => false
  | String _ s' => includes s' pat
  end.

(** How many times [pat] occurs in [s]. *)
Fixpoint occurrences (s pat : string) : nat :=
  (if startsWith s pat then 1 else 0) +
  match s with
  | EmptyString => 0
  | String _ s' => occurrences s' pat
  end.

(** The template literal that wraps a text in double quotes. *)
Definition quoted (s : string) : string :=
  String Chars.dquote (s +:+ String Chars.dquote EmptyString).

(** ** Values and objects *)

(** A JavaScript value of type [any].  Numbers are the integral ones;
    arrays and nested objects are only ever read by the code, and are
    carried by value. *)
Inductive value : Type :=
  | VNull
  | VUndefined
  | VBool (b : bool)
  | VNum (n : Z)
  | VStr (s : string)
  | VArr (elems : list value)
  | VObj (props : list (string * value)).

(** The own enumerable string-keyed properties of an object, in the
    order [Object.entries] yields them. *)
Abbreviation object := (list (string * value)).

Definition keys (o : object) : list string := o.*1.

(** [o[k]], [None] for a missing property. *)
Fixpoint obj_get (k : string) (o : object) : option value :=
  match o with
  | [] => None
  | (k', v) :: rest => if decide (k' = k) then Some v else obj_get k rest
  end.

(** An object has one property per key. *)
Definition wf_object (o : object) : Prop := NoDup (keys o).

Module PropertyOrder.
(** Property keys that are array indices (canonical decimal numerals
    below 2^32 - 1) are enumerated first, in ascending order; the
    other keys follow in creation order. *)

Definition digit (c : ascii) : option N :=
  let n := N_of_ascii c in
  if ((48 <=? n) && (n <=? 57))%N then Some (n - 48)%N else None.

Fixpoint digits (acc : N) (s : string) : option N :=
  match s with
  | EmptyString => Some acc
  | String c s' =>
      match digit c with
      | Some d => digits (10 * acc + d)%N s'
      | None => None
      end
  end.

Definition array_index (k : string) : option N :=
  match k with
  | EmptyString => None
  | String c rest =>
      match digit c with
      | Some 0%N => match rest with EmptyString => Some 0%N | _ => None end
      | Some _ =>
          match digits 0 k with
          | Some n => if (n <? 2 ^ 32 - 1)%N then Some n else None
          | None => None
          end
      | None => None
      end
  end.

(** Where a property created under the array index [n] lands. *)
Fixpoint place_index (n : N) (k : string) (v : value) (o : object) : object :=
  match o with
  | [] => [(k, v)]
  | (k', v') :: rest =>
      match array_index k' with
      | Some m =>
          if (m <? n)%N then (k', v') :: place_index n k v rest
          else (k, v) :: o
      | None => (k, v) :: o
      end
  end.

(** Creation of a property that the object does not have yet. *)
Definition define (k : string) (v : value) (o : object) : object :=
  match array_index k with
  | Some n => place_index n k v o
  | None => o ++ [(k, v)]
  end.
End PropertyOrder.

(** Overwriting the value of a property the object has: its place in the
    enumeration order is kept. *)
Fixpoint obj_replace (k : string) (v : value) (o : object) : object :=
  match o with
  | [] => []
  | (k', v') :: rest =>
      if decide (k' = k) then (k, v) :: rest else (k', v') :: obj_replace k v rest
  end.

(** The assignment [o[k] = v]. *)
Definition obj_set (k : string) (v : value) (o : object) : object :=
  match obj_get k o with
  | Some _ => obj_replace k v o
  | None => PropertyOrder.define k v o
  end.

(** What [Object.assign(target, source)] does to the properties of
    [target]: one assignment per entry of [source], in order. *)
Definition assign_from (target source : object) : object :=
  foldl (fun t kv => obj_set kv.1 kv.2 t) target source.

(** [Object.assign(target, source1, source2, ...)]. *)
Definition assign_all (target : object) (sources : list object) : object :=
  foldl assign_from target sources.

(** ** The store and the outside world *)

(** A reference to an object of the store. *)
Abbreviation loc := positive.

(** The three private fields of a [Calibre] instance; [execOptions]
    holds a reference. *)
Record Calibre : Type := {
  execOptions : loc;
  library : string;
  log : bool;
}.

(** The state a call runs in: the instance, the store of objects,
    what [console.log] printed (one argument list per call) and the
    commands handed to [child_process.exec], each with the content of
    the options object it was given. *)
Record world : Type := {
  self : Calibre;
  heap : gmap loc object;
  console : list (list string);
  spawned : list (string * object);
}.

(** The three arguments [child_process.exec] passes to its callback. *)
Record callback_args (E : Type) : Type := {
  err : option E;
  stdout : string;
  stderr : string;
}.
Arguments err {E} _.
Arguments stdout {E} _.
Arguments stderr {E} _.

(** The process host: the error objects it reports, and what it answers
    to a call of [child_process.exec], which may depend on every command
    spawned so far (the last one being the call at hand). *)
Class ProcessHost : Type := {
  ExecException : Type;
  host_answer : list (string * object) -> callback_args ExecException;
}.

(** The two helpers imported from ./lib, which src/ does not contain. *)
Class Lib : Type := {
  escape : value -> string;
  camelToKebab : string -> string;
}.

(** How a promise settles: fulfilled with a string, or rejected with
    the host's error object or with a string. *)
Inductive rejection (E : Type) : Type :=
  | RejectError (e : E)
  | RejectString (s : string).
Arguments RejectError {E} e.
Arguments RejectString {E} s.

Inductive settled (E : Type) : Type :=
  | Resolved (v : string)
  | Rejected (r : rejection E).
Arguments Resolved {E} v.
Arguments Rejected {E} r.

(** *** A state monad over [world] *)

Definition M (A : Type) : Type := world -> A * world.

#[global] Instance M_ret : MRet M := fun A (a : A) w => (a, w).
#[global] Instance M_bind : MBind M :=
  fun A B (f : A -> M B) (m : M A) w => let '(a, w') := m w in f a w'.

Definition set_heap (h : gmap loc object) (w : world) : world :=
  {| self := self w; heap := h; console := console w; spawned := spawned w |}.

(** [this]. *)
Definition get_this : M Calibre := fun w => (self w, w).

(** The content of the object behind a reference.  Every reference a
    program holds is allocated; the empty object stands for the
    others. *)
Definition deref (h : gmap loc object) (l : loc) : object := default [] (h !! l).

Definition read (l : loc) : M object := fun w => (deref (heap w) l, w).

(** An object literal: a new object at an unused location. *)
Definition alloc (o : object) : M loc := fun w =>
  let l := fresh (dom (heap w)) in (l, set_heap (<[l := o]> (heap w)) w).

(** A reference is allocated when the store has an object for it. *)
Definition allocated (h : gmap loc object) (l : loc) : Prop := is_Some (h !! l).

(** [Object.assign(target, ...sources)]: mutates [target], returns it. *)
Definition assign_step (target source : loc) : M unit := fun w =>
  let h := heap w in
  (tt, set_heap (<[target := assign_from (deref h target) (deref h source)]> h) w).

Fixpoint Object_assign (target : loc) (sources : list loc) : M loc :=
  match sources with
  | [] => mret target
  | s :: rest => assign_step target s ;; Object_assign target rest
  end.

(** [console.log(...args)]. *)
Definition console_log (args : list string) : M unit := fun w =>
  (tt, {| self := self w; heap := heap w;
          console := console w ++ [args]; spawned := spawned w |}).

(** ** The class *)

(** The second parameter of [run] as a caller may pass it: left out,
    an array, or an object that is not an array. *)
Inductive args_param : Type :=
  | ArgsOmitted
  | ArgsArray (args : list value)
  | ArgsObject (options : loc).

(** A call of one of the three methods. *)
Inductive call : Type :=
  | CallExec (command : string) (options : option loc)
  | CallRun (command : string) (args : args_param) (options : option loc)
  | CallEbookConvert (input format : string) (options : option loc).

Section Calibre.
Context `{Lib} `{ProcessHost}.

Abbreviation outcome := (settled ExecException).

(** [child_process.exec(command, options, callback)]: the call is
    recorded and the host's answer is what the callback receives. *)
Definition child_process_exec (command : string) (options : loc)
  : M (callback_args ExecException) := fun w =>
  let trace := spawned w ++ [(command, deref (heap w) options)] in
  (host_answer trace,
   {| self := self w; heap := heap w; console := console w; spawned := trace |}).

(** The callback of [exec] (lines 44 to 48). *)
Definition callback (a : callback_args ExecException) : outcome :=
  match err a with
  | Some e => Rejected (RejectError e)
  | None =>
      match stderr a with
      | String _ _ => Rejected (RejectString (stderr a))
      | EmptyString => Resolved (stdout a)
      end
  end.

(** [exec(command, options = {})]. *)
Definition exec (command : string) (options : option loc) : M outcome :=
  options ← match options with Some l => mret l | None => alloc [] end;
  this ← get_this;
  target ← alloc [];
  merged ← Object_assign target [execOptions this; options];
  a ← child_process_exec command merged;
  mret (callback a).

(** The callback of the inner [map] (lines 83 to 94): one flag, with
    its value unless the value is [null]. *)
Definition option_token (key : string) (v : value) : string :=
  let option :=
    if decide (String.length key = 1) then "-" +:+ key else "--" +:+ key in
  match v with
  | VNull => option
  | _ => option +:+ " " +:+ quoted (escape v)
  end.

(** The callback of the outer [map] (lines 77 to 96). *)
Definition option_entry (kv : string * value) : string :=
  let key := camelToKebab kv.1 in
  join " " (map (option_token key)
                (match kv.2 with VArr elems => elems | v => [v] end)).

(** The command line (lines 72 to 97). *)
Definition execString (command : string) (args : list value) (options : object)
  : string :=
  join " " (command :: map (fun arg => quoted (escape arg)) args
                    ++ map option_entry options).

(** [run(command, args = [], options = {})]. *)
Definition run (command : string) (args : args_param) (options : option loc)
  : M outcome :=
  let args := match args with ArgsOmitted => ArgsArray [] | _ => args end in
  options ← match options with Some l => mret l | None => alloc [] end;
  let '(args, options) :=
    match args with
    | ArgsObject o => ([], o)
    | ArgsArray a => (a, options)
    | ArgsOmitted => ([], options)
    end in
  this ← get_this;
  options ← (if startsWith command "calibredb"
             then target ← alloc [("libraryPath", VStr (library this))];
                  Object_assign target [options]
             else mret options);
  entries ← read options;
  let execString := execString command args entries in
  (if log this then console_log ["~~node-calibre:"; execString] else mret tt);;
  exec execString None.

(** [ebookConvert(input, format, options)]. *)
Definition ebookConvert (input format : string) (options : option loc)
  : M outcome :=
  let output := input +:+ "." +:+ format in
  r ← run "ebook-convert" (ArgsArray [VStr input; VStr output]) options;
  mret (match r with
        | Resolved _ => Resolved output
        | Rejected e => Rejected e
        end).

(** One call, by its description. *)
Definition perform (c : call) : M (settled ExecException) :=
  match c with
  | CallExec command options => exec command options
  | CallRun command args options => run command args options
  | CallEbookConvert input format options => ebookConvert input format options
  end.

(** A sequence of calls, one after the other. *)
Fixpoint perform_all (calls : list call) : M (list (settled ExecException)) :=
  match calls with
  | [] => mret []
  | c :: rest => r ← perform c; rs ← perform_all rest; mret (r :: rs)
  end.

End Calibre.

(** The argument of the constructor; each field may be left out. *)
Record ConstructorOptions : Type := {
  opt_execOptions : option loc;
  opt_library : option string;
  opt_log : option bool;
}.

(** [new Calibre(options = {})] (lines 28 to 32), in a store [h]. *)
Definition constructor (options : option ConstructorOptions) (h : gmap loc object)
  : Calibre * gmap loc object :=
  let options :=
    default {| opt_execOptions := None; opt_library := None; opt_log := None |}
            options in
  let '(eo, h') :=
    match opt_execOptions options with
    | Some l => (l, h)
    | None =>
        let l := fresh (dom h) in
        (l, <[l := [("maxBuffer", VNum (2000 * 1024))]]> h)
    end in
  ({| execOptions := eo;
      library := match opt_library options with
                 | Some (String c s) => String c s
                 | _ => EmptyString
                 end;
      log := match opt_log options with Some true => true | _ => false end |},
   h').

(** The world a fresh instance starts in. *)
Definition new_Calibre (options : option ConstructorOptions) (h : gmap loc object)
  : world :=
  let '(this, h') := constructor options h in
  {| self := this; heap := h'; console := []; spawned := [] |}.

(** ** The vocabulary of the statements *)

(** The positional arguments a call of [run] supplies. *)
Definition supplied_args (args : args_param) : list value :=
  match args with ArgsArray a => a | _ => [] end.

(** The reference to the options mapping a call of [run] supplies: the
    second parameter when that is a mapping, else the third. *)
Definition options_ref (args : args_param) (options : option loc) : option loc :=
  match args with ArgsObject o => Some o | _ => options end.

(** The content of that mapping, empty when the caller gave none. *)
Definition supplied_options (h : gmap loc object) (args : args_param)
    (options : option loc) : object :=
  from_option (deref h) [] (options_ref args options).

(** The options [run] serializes: the caller's, over the default
    [libraryPath] when the command is one of calibredb. *)
Definition with_defaults (this : Calibre) (command : string) (o : object) : object :=
  if startsWith command "calibredb"
  then assign_from [("libraryPath", VStr (library this))] o
  else o.

(** The flag of an option key, once in kebab case: one hyphen before a
    key of one character, two before a longer one. *)
Definition flag_of (key : string) : string :=
  if decide (String.length key = 1) then "-" +:+ key else "--" +:+ key.

(** [wp m w Q]: running [m] in [w] gives a result and a world that
    satisfy [Q]. *)
Definition wp {A : Type} (m : M A) (w : world) (Q : A → world → Prop) : Prop :=
  Q (m w).1 (m w).2.

(** The worlds agree on everything but the store. *)
Definition same_but_heap (w w' : world) : Prop :=
  self w' = self w ∧ console w' = console w ∧ spawned w' = spawned w.

(** No key of the object is an array index. *)
Definition plain_keys (o : object) : Prop :=
  Forall (fun kv => PropertyOrder.array_index kv.1 = None) o.

(** A property of the target after a merge: its key, and the value of
    the source for that key when the source has one. *)
Definition override (source : object) (kv : string * value) : string * value :=
  (kv.1, default kv.2 (obj_get kv.1 source)).

(** The properties of [target], overridden in place by [source], then
    the properties only [source] has, in the order of [source]. *)
Definition merged_over (target source : object) : object :=
  map (override source) target ++ filter (fun kv => kv.1 ∉ keys target) source.

(** The texts of [xs], each one after a [sep]. *)
Fixpoint prefixed (sep : string) (xs : list string) : string :=
  match xs with
  | [] => EmptyString
  | x :: rest => sep +:+ x +:+ prefixed sep rest
  end.

(** The values an option stands for: the elements of a sequence, or the
    value itself (line 82). *)
Definition values_of (v : value) : list value :=
  match v with VArr elems => elems | _ => [v] end.

(** The value is the empty sequence. *)
Definition empty_sequence (v : value) : bool :=
  match v with VArr [] => true | _ => false end.

Section Tokens.
Context `{Lib}.

(** The tokens of the options, one per value, in order. *)
Definition option_tokens (options : object) : list string :=
  concat (map (fun kv => map (option_token (camelToKebab kv.1)) (values_of kv.2))
              options).

End Tokens.

(** ** The helpers of ./lib, from the specification *)

Module SpecLib.

(** Modelled from the spec: the implicit conversion of a value to its
    textual representation (section 4.1, Input), which lib/escape,
    absent from src/, applies to its argument; it is JavaScript's
    [String(value)] on the values of [value]. *)
Fixpoint ToString (v : value) : string :=
  match v with
  | VNull => "null"
  | VUndefined => "undefined"
  | VBool true => "true"
  | VBool false => "false"
  | VNum n => DecimalString.NilZero.string_of_int (Z.to_int n)
  | VStr s => s
  | VArr elems =>
      join "," (map (fun e => match e with
                              | VNull | VUndefined => EmptyString
                              | _ => ToString e
                              end) elems)
  | VObj _ => "[object Object]"
  end.

(** The two characters the escaper neutralizes. *)
Definition special (c : ascii) : bool :=
  bool_decide (c = Chars.dquote) || bool_decide (c = Chars.backslash).

(** Modelled from the spec: lib/escape is absent from src/.  Section
    4.1, Output: the double-quote character and the backslash character
    are each prefixed with a backslash; section 9: the rule neutralizes
    these two characters only. *)
Fixpoint escape_string (s : string) : string :=
  match s with
  | EmptyString => EmptyString
  | String c s' =>
      if special c then String Chars.backslash (String c (escape_string s'))
      else String c (escape_string s')
  end.

Definition escape (v : value) : string := escape_string (ToString v).

Definition upper (c : ascii) : bool :=
  let n := N_of_ascii c in ((65 <=? n) && (n <=? 90))%N.

(** Modelled from the spec: lib/camel-to-kebab is absent from src/.
    Section 4.2, step 4: the key goes from camel case to kebab case
    (libraryPath to library-path); each upper-case letter gives a
    hyphen and the letter in lower case, so that a key already in kebab
    case is unchanged (section 8). *)
Fixpoint camelToKebab (key : string) : string :=
  match key with
  | EmptyString => EmptyString
  | String c rest =>
      if upper c
      then String "-" (String (ascii_of_N (N_of_ascii c + 32)) (camelToKebab rest))
      else String c (camelToKebab rest)
  end.

#[export] Instance lib : Lib := Build_Lib escape camelToKebab.

End SpecLib.

(** ** Reading a double-quoted word, as a POSIX shell does *)

Module Shell.








End Shell.

(** ** A host and two stores to run the class on *)

Module Sample.

(** A host that reports an error for the command [false], prints a
    warning on standard error for a command that starts with [warn],
    and else prints the command it was given. *)
Definition answer (trace : list (string * object)) : callback_args string :=
  match last trace with
  | Some (command, _) =>
      if decide (command = "false")
      then {| err := Some "Command failed: false"; stdout := ""; stderr := "" |}
      else if startsWith command "warn"
      then {| err := None; stdout := ""; stderr := "deprecated" |}
      else {| err := None; stdout := command; stderr := "" |}
  | None => {| err := None; stdout := ""; stderr := "" |}
  end.

Definition host : ProcessHost := {| ExecException := string; host_answer := answer |}.

(** A store with the option mappings of two callers. *)
Definition store : gmap loc object :=
  <[1%positive := [("libraryPath", VStr "/mine"); ("s", VStr "title")]]>
    (<[2%positive := [("authors", VArr [VStr "A"; VStr "B"]); ("dontNotifyGui", VNull)]]>
       (<[3%positive := [("libraryPath", VArr [VStr "/a"; VStr "/b"])]]>
          (<[4%positive := [("cwd", VStr "/tmp")]]> ∅))).

(** An instance with a library path, and one with the defaults. *)
Definition configured : world :=
  new_Calibre (Some {| opt_execOptions := None; opt_library := Some "/books";
                       opt_log := Some true |}) store.

Definition plain : world := new_Calibre None store.

End Sample.

(** A second store, with the library path after another option, and an
    instance that does not log. *)
Module Sample2.

Definition store : gmap loc object :=
  <[1%positive := [("s", VStr "title"); ("libraryPath", VStr "/mine")]]>
    (<[2%positive := [("cwd", VStr "/tmp"); ("maxBuffer", VNum 1024)]]> ∅).

Definition quiet : world :=
  new_Calibre (Some {| opt_execOptions := None; opt_library := Some "/books";
                       opt_log := None |}) store.

Definition loud : world :=
  new_Calibre (Some {| opt_execOptions := None; opt_library := Some "/books";
                       opt_log := Some true |}) store.

End Sample2.

(** A caller that spells the library path twice, once in kebab case. *)
Module Sample3.

Definition store : gmap loc object :=
  <[1%positive := [("libraryPath", VStr "/mine"); ("library-path", VStr "/x")]]> ∅.

Definition configured : world :=
  new_Calibre (Some {| opt_execOptions := None; opt_library := Some "/books";
                       opt_log := None |}) store.

End Sample3.

(** * Properties *)

(** ** Strings *)

Lemma append_cons (c : ascii) (s t : string) :
  String c s +:+ t = String c (s +:+ t).
Proof. reflexivity. Qed.

Lemma append_nil_l (t : string) : EmptyString +:+ t = t.
Proof. reflexivity. Qed.

Lemma append_empty_r (s : string) : s +:+ EmptyString = s.
Proof. induction s as [|c s IH]; [done | by rewrite append_cons, IH]. Qed.

Lemma append_assoc (a b c : string) : (a +:+ b) +:+ c = a +:+ (b +:+ c).
Proof. induction a as [|x a IH]; [done | by rewrite !append_cons, IH]. Qed.

Lemma startsWith_append (p s : string) : startsWith (p +:+ s) p = true.
Proof.
  induction p as [|c p IH]; [done |].
  rewrite append_cons. simpl. by rewrite decide_True.
Qed.

Lemma includes_startsWith (s p : string) :
  startsWith s p = true → includes s p = true.
Proof. intros E. destruct s; simpl; rewrite E; done. Qed.

Lemma includes_append (a p b : string) : includes (a +:+ p +:+ b) p = true.
Proof.
  induction a as [|c a IH].
  - rewrite append_nil_l. apply includes_startsWith, startsWith_append.
  - rewrite append_cons. simpl. rewrite IH. apply orb_true_r.
Qed.

Lemma join_cons (sep x : string) (xs : list string) :
  xs ≠ [] → join sep (x :: xs) = x +:+ sep +:+ join sep xs.
Proof. by destruct xs. Qed.

(** An element of the joined list is a segment of the result. *)
Lemma join_segment (sep : string) (xs : list string) (t : string) (ys : list string) :
  ∃ a b, join sep (xs ++ t :: ys) = a +:+ t +:+ b.
Proof.
  induction xs as [|x xs [a [b IH]]].
  - exists EmptyString. destruct ys as [|y ys].
    + exists EmptyString. simpl. by rewrite append_empty_r.
    + by exists (sep +:+ join sep (y :: ys)).
  - exists (x +:+ sep +:+ a), b.
    change ((x :: xs) ++ t :: ys) with (x :: (xs ++ t :: ys)).
    rewrite join_cons by (by destruct xs).
    by rewrite IH, !append_assoc.
Qed.

(** ** Objects *)

Lemma obj_get_None (k : string) (o : object) : obj_get k o = None ↔ k ∉ keys o.
Proof.
  unfold keys. induction o as [|[k' v'] o IH]; simpl.
  - split; [intros _; apply not_elem_of_nil | done].
  - rewrite not_elem_of_cons. case_decide; subst.
    + split; [done | by intros [? _]].
    + rewrite IH. split; [by split | by intros [_ ?]].
Qed.

Lemma obj_get_elem_of (k : string) (v : value) (o : object) :
  obj_get k o = Some v → (k, v) ∈ o.
Proof.
  induction o as [|[k' v'] o IH]; simpl; [done |].
  case_decide; subst.
  - intros [= ->]. apply list_elem_of_here.
  - intros E. apply list_elem_of_further, IH, E.
Qed.

Lemma obj_get_app_None (k : string) (o1 o2 : object) :
  obj_get k o1 = None → obj_get k (o1 ++ o2) = obj_get k o2.
Proof.
  induction o1 as [|[k' v'] o1 IH]; simpl; [done |].
  case_decide; [done | exact IH].
Qed.

Lemma obj_get_app_Some (k : string) (v : value) (o1 o2 : object) :
  obj_get k o1 = Some v → obj_get k (o1 ++ o2) = Some v.
Proof.
  induction o1 as [|[k' v'] o1 IH]; simpl; [done |].
  case_decide; [done | exact IH].
Qed.

Lemma keys_replace (k : string) (v : value) (o : object) :
  keys (obj_replace k v o) = keys o.
Proof.
  unfold keys. induction o as [|[k' v'] o IH]; simpl; [done |].
  case_decide; subst; simpl; [done | f_equal; exact IH].
Qed.

Lemma obj_get_replace_eq (k : string) (v : value) (o : object) :
  is_Some (obj_get k o) → obj_get k (obj_replace k v o) = Some v.
Proof.
  induction o as [|[k' v'] o IH]; simpl; [by intros [? ?] |].
  case_decide; subst; simpl.
  - by rewrite decide_True.
  - by rewrite decide_False.
Qed.

Lemma obj_get_replace_ne (k k' : string) (v : value) (o : object) :
  k ≠ k' → obj_get k' (obj_replace k v o) = obj_get k' o.
Proof.
  intros Hne. induction o as [|[k0 v0] o IH]; simpl; [done |].
  case_decide; subst; simpl.
  - by rewrite !decide_False.
  - by rewrite IH.
Qed.

Lemma place_index_perm (n : N) (k : string) (v : value) (o : object) :
  PropertyOrder.place_index n k v o ≡ₚ (k, v) :: o.
Proof.
  induction o as [|[k' v'] o IH]; simpl; [done |].
  destruct (PropertyOrder.array_index k') as [m|]; [| done].
  destruct (m <? n)%N; [| done].
  rewrite IH. apply Permutation_swap.
Qed.

Lemma define_perm (k : string) (v : value) (o : object) :
  PropertyOrder.define k v o ≡ₚ (k, v) :: o.
Proof.
  unfold PropertyOrder.define.
  destruct (PropertyOrder.array_index k); [apply place_index_perm |].
  symmetry. apply Permutation_cons_append.
Qed.

Lemma obj_get_place_eq (n : N) (k : string) (v : value) (o : object) :
  obj_get k o = None → obj_get k (PropertyOrder.place_index n k v o) = Some v.
Proof.
  induction o as [|[k' v'] o IH]; simpl.
  - by rewrite decide_True.
  - case_decide; [done |]. intros E.
    destruct (PropertyOrder.array_index k') as [m|]; [destruct (m <? n)%N |];
      simpl; rewrite ?decide_True, ?decide_False by done; auto.
Qed.

Lemma obj_get_place_ne (n : N) (k k' : string) (v : value) (o : object) :
  k ≠ k' → obj_get k' (PropertyOrder.place_index n k v o) = obj_get k' o.
Proof.
  intros Hne. induction o as [|[k0 v0] o IH]; simpl.
  - by rewrite decide_False.
  - destruct (PropertyOrder.array_index k0) as [m|]; [destruct (m <? n)%N |];
      simpl; rewrite ?IH, ?(decide_False (P := k = k')) by done; done.
Qed.

Lemma obj_get_set_eq (k : string) (v : value) (o : object) :
  obj_get k (obj_set k v o) = Some v.
Proof.
  unfold obj_set. destruct (obj_get k o) eqn:E.
  - apply obj_get_replace_eq. by rewrite E.
  - unfold PropertyOrder.define. destruct (PropertyOrder.array_index k).
    + by apply obj_get_place_eq.
    + rewrite obj_get_app_None by done. simpl. by rewrite decide_True.
Qed.

Lemma obj_get_set_ne (k k' : string) (v : value) (o : object) :
  k ≠ k' → obj_get k' (obj_set k v o) = obj_get k' o.
Proof.
  intros Hne. unfold obj_set. destruct (obj_get k o) eqn:E.
  - by apply obj_get_replace_ne.
  - unfold PropertyOrder.define. destruct (PropertyOrder.array_index k).
    + by apply obj_get_place_ne.
    + destruct (obj_get k' o) eqn:E'.
      * by apply obj_get_app_Some.
      * rewrite obj_get_app_None by done. simpl. by rewrite decide_False.
Qed.

Lemma wf_object_set (k : string) (v : value) (o : object) :
  wf_object o → wf_object (obj_set k v o).
Proof.
  unfold wf_object, obj_set. intros Hwf. destruct (obj_get k o) eqn:E.
  - by rewrite keys_replace.
  - unfold keys. rewrite define_perm. simpl.
    apply NoDup_cons. split; [by apply obj_get_None | done].
Qed.

Lemma wf_assign_from (target source : object) :
  wf_object target → wf_object (assign_from target source).
Proof.
  unfold assign_from. revert target.
  induction source as [|[k v] source IH]; intros target Hwf; simpl; [done |].
  by apply IH, wf_object_set.
Qed.

(** A key the source does not have keeps the value of the target. *)
Lemma obj_get_assign_None (k : string) (target source : object) :
  obj_get k source = None →
  obj_get k (assign_from target source) = obj_get k target.
Proof.
  unfold assign_from. revert target.
  induction source as [|[k' v'] source IH]; intros target; simpl; [done |].
  case_decide; [done |]. intros E.
  rewrite IH by done. by apply obj_get_set_ne.
Qed.

(** A key the source has takes the value of the source. *)
Lemma obj_get_assign_Some (k : string) (v : value) (target source : object) :
  wf_object source → obj_get k source = Some v →
  obj_get k (assign_from target source) = Some v.
Proof.
  unfold assign_from, wf_object, keys. revert target.
  induction source as [|[k' v'] source IH]; intros target Hwf; simpl; [done |].
  simpl in Hwf. apply NoDup_cons in Hwf as [Hk' Hwf].
  case_decide; subst.
  - intros [= ->]. fold (assign_from (obj_set k v target) source).
    rewrite obj_get_assign_None by (by apply obj_get_None).
    apply obj_get_set_eq.
  - intros E. by apply IH.
Qed.

Lemma filter_key_absent (k : string) (o : object) :
  k ∉ keys o → filter (fun kv => kv.1 = k) o = [].
Proof.
  unfold keys. induction o as [|[k' v'] o IH]; [done |].
  rewrite fmap_cons, not_elem_of_cons. intros [Hne Hk].
  rewrite filter_cons_False by (simpl; intros ->; by apply Hne). by apply IH.
Qed.

(** In an object, the entries under a key are the one [obj_get] finds. *)
Lemma filter_key (k : string) (v : value) (o : object) :
  wf_object o → obj_get k o = Some v →
  filter (fun kv => kv.1 = k) o = [(k, v)].
Proof.
  unfold wf_object, keys.
  induction o as [|[k' v'] o IH]; [done |].
  rewrite fmap_cons. intros [Hk' Hwf]%NoDup_cons E. simpl in E.
  case_decide; subst.
  - injection E as ->. rewrite filter_cons_True by done.
    f_equal. by apply filter_key_absent.
  - rewrite filter_cons_False by done. by apply IH.
Qed.

(** ** The store *)

Lemma deref_insert_eq (h : gmap loc object) (l : loc) (o : object) :
  deref (<[l := o]> h) l = o.
Proof. unfold deref. by rewrite lookup_insert_eq. Qed.

Lemma deref_insert_ne (h : gmap loc object) (l l' : loc) (o : object) :
  l ≠ l' → deref (<[l := o]> h) l' = deref h l'.
Proof. intros Hne. unfold deref. by rewrite lookup_insert_ne. Qed.

Lemma fresh_unallocated (h : gmap loc object) : h !! fresh (dom h) = None.
Proof. apply not_elem_of_dom, is_fresh. Qed.

Lemma allocated_insert (h : gmap loc object) (l l' : loc) (o : object) :
  allocated h l → allocated (<[l' := o]> h) l.
Proof.
  unfold allocated. intros Hl. rewrite lookup_insert. case_decide; [by eexists | done].
Qed.

Lemma allocated_subseteq (h h' : gmap loc object) (l : loc) :
  h ⊆ h' → allocated h l → allocated h' l.
Proof. intros Hsub [o Ho]. exists o. by eapply lookup_weaken. Qed.

Lemma deref_subseteq (h h' : gmap loc object) (l : loc) :
  h ⊆ h' → allocated h l → deref h' l = deref h l.
Proof.
  intros Hsub [o Ho]. unfold deref.
  by rewrite Ho, (lookup_weaken _ _ _ _ Ho Hsub).
Qed.

(** ** Weakest preconditions for [M] *)

Lemma same_but_heap_refl (w : world) : same_but_heap w w.
Proof. by repeat split. Qed.

Lemma same_but_heap_trans (w1 w2 w3 : world) :
  same_but_heap w1 w2 → same_but_heap w2 w3 → same_but_heap w1 w3.
Proof.
  intros (? & ? & ?) (? & ? & ?). repeat split; etrans; eauto.
Qed.

Lemma wp_ret {A : Type} (a : A) (w : world) (Q : A → world → Prop) :
  Q a w → wp (mret a) w Q.
Proof. done. Qed.

Lemma wp_bind {A B : Type} (m : M A) (f : A → M B) (w : world)
    (Q : B → world → Prop) :
  wp m w (fun a w' => wp (f a) w' Q) → wp (m ≫= f) w Q.
Proof. unfold wp, mbind, M_bind. by destruct (m w). Qed.

Lemma wp_mono {A : Type} (m : M A) (w : world) (P Q : A → world → Prop) :
  wp m w P → (∀ a w', P a w' → Q a w') → wp m w Q.
Proof. unfold wp. auto. Qed.

Lemma wp_get_this (w : world) (Q : Calibre → world → Prop) :
  Q (self w) w → wp get_this w Q.
Proof. done. Qed.

Lemma wp_read (l : loc) (w : world) (Q : object → world → Prop) :
  Q (deref (heap w) l) w → wp (read l) w Q.
Proof. done. Qed.

Lemma wp_alloc (o : object) (w : world) (Q : loc → world → Prop) :
  (∀ l w', heap w !! l = None → heap w' = <[l := o]> (heap w) →
           same_but_heap w w' → Q l w') →
  wp (alloc o) w Q.
Proof.
  intros HQ. unfold wp, alloc. simpl.
  apply HQ; [apply fresh_unallocated | done | by repeat split].
Qed.

Lemma wp_console_log (args : list string) (w : world) (Q : unit → world → Prop) :
  (∀ w', self w' = self w → heap w' = heap w → spawned w' = spawned w →
         console w' = console w ++ [args] → Q tt w') →
  wp (console_log args) w Q.
Proof. intros HQ. unfold wp, console_log. simpl. by apply HQ. Qed.

(** [Object.assign] writes to its target only; when the target is none
    of the sources, the target ends with the merge of what the store
    held. *)
Lemma wp_Object_assign (target : loc) (sources : list loc) (w : world)
    (Q : loc → world → Prop) :
  allocated (heap w) target →
  (∀ merged w',
      heap w' = <[target := merged]> (heap w) → same_but_heap w w' →
      (target ∉ sources →
       merged = assign_all (deref (heap w) target) (deref (heap w) <$> sources)) →
      Q target w') →
  wp (Object_assign target sources) w Q.
Proof.
  revert w Q. induction sources as [|s sources IH]; intros w Q Halloc HQ.
  - simpl. apply wp_ret. apply (HQ (deref (heap w) target)).
    + destruct Halloc as [o Ho]. unfold deref. rewrite Ho. simpl.
      by rewrite insert_id.
    + apply same_but_heap_refl.
    + done.
  - simpl. apply wp_bind. unfold wp at 1, assign_step. simpl.
    apply IH; simpl.
    { by apply allocated_insert. }
    intros merged w' Hheap Hsame Hmerged.
    apply (HQ merged).
    + by rewrite Hheap, insert_insert_eq.
    + exact Hsame.
    + intros [Hne Hnotin]%not_elem_of_cons.
      rewrite Hmerged by done. rewrite deref_insert_eq. simpl. f_equal.
      apply list_fmap_ext. intros i l Hl.
      apply deref_insert_ne. intros ->. apply Hnotin.
      by eapply list_elem_of_lookup_2.
Qed.

(** A parameter with the default value [{}]. *)
Lemma wp_default_object (options : option loc) (w : world)
    (Q : loc → world → Prop) :
  (∀ l w', same_but_heap w w' → heap w ⊆ heap w' →
           ((∀ l0, options = Some l0 → allocated (heap w) l0) →
            allocated (heap w') l ∧
            deref (heap w') l = from_option (deref (heap w)) [] options) →
           Q l w') →
  wp (match options with Some l => mret l | None => alloc [] end) w Q.
Proof.
  intros HQ. destruct options as [l|].
  - apply wp_ret, HQ; [apply same_but_heap_refl | done |].
    intros Hl. split; [by apply Hl | done].
  - apply wp_alloc. intros l w' Hfresh Hheap Hsame.
    apply HQ; [done | rewrite Hheap; by apply insert_subseteq |].
    intros _. rewrite Hheap. split.
    + exists []. apply lookup_insert_eq.
    + apply deref_insert_eq.
Qed.

(** ** Counting the occurrences of a text *)

Lemma includes_char_head (c d : ascii) (s : string) :
  includes (String c s) (String d EmptyString) = false →
  c ≠ d ∧ includes s (String d EmptyString) = false.
Proof.
  simpl. intros [Hhead Htail]%orb_false_elim. split; [| done].
  intros ->. by rewrite decide_True in Hhead.
Qed.

(** A text without the character [c] starts no later than it ends
    before a [c]. *)
Lemma startsWith_app_sep (c : ascii) (p s b : string) :
  includes p (String c EmptyString) = false →
  startsWith (s +:+ String c b) p = startsWith s p.
Proof.
  revert s. induction p as [|a p IH]; intros s Hp; [done |].
  apply includes_char_head in Hp as [Hne Hp].
  destruct s as [|y s].
  - rewrite append_nil_l. simpl. by rewrite decide_False.
  - rewrite append_cons. simpl. case_decide; [by apply IH | done].
Qed.

Lemma occurrences_empty (p : string) : p ≠ EmptyString → occurrences EmptyString p = 0.
Proof. by destruct p. Qed.

(** No occurrence of a text without [c] lies across a [c]. *)
Lemma occurrences_app_sep (c : ascii) (a b p : string) :
  p ≠ EmptyString → includes p (String c EmptyString) = false →
  occurrences (a +:+ String c b) p = occurrences a p + occurrences b p.
Proof.
  intros Hne Hp. induction a as [|x a IH].
  - rewrite append_nil_l, occurrences_empty by done.
    change (occurrences (String c b) p)
      with ((if startsWith (String c b) p then 1 else 0) + occurrences b p).
    rewrite <- (append_nil_l (String c b)), startsWith_app_sep by done.
    by destruct p.
  - rewrite append_cons.
    change (occurrences (String x (a +:+ String c b)) p)
      with ((if startsWith (String x (a +:+ String c b)) p then 1 else 0)
            + occurrences (a +:+ String c b) p).
    change (occurrences (String x a) p)
      with ((if startsWith (String x a) p then 1 else 0) + occurrences a p).
    rewrite <- append_cons, startsWith_app_sep, IH by done. lia.
Qed.

Lemma occurrences_join (c : ascii) (tokens : list string) (p : string) :
  p ≠ EmptyString → includes p (String c EmptyString) = false →
  occurrences (join (String c EmptyString) tokens) p
  = sum_list ((fun t => occurrences t p) <$> tokens).
Proof.
  intros Hne Hp. induction tokens as [|t tokens IH].
  - by apply occurrences_empty.
  - destruct tokens as [|t' tokens].
    + simpl. lia.
    + rewrite join_cons by done.
      change (String c EmptyString +:+ ?x) with (String c x).
      rewrite occurrences_app_sep, IH by done. done.
Qed.

Lemma includes_false_occurrences (s p : string) :
  includes s p = false → occurrences s p = 0.
Proof.
  induction s as [|c s IH]; simpl.
  - intros [-> _]%orb_false_elim. done.
  - intros [-> Hs]%orb_false_elim. by rewrite IH.
Qed.

Lemma sum_list_zero {A : Type} (f : A → nat) (l : list A) :
  (∀ x, x ∈ l → f x = 0) → sum_list (f <$> l) = 0.
Proof.
  induction l as [|x l IH]; intros Hf; [done |].
  simpl. rewrite (Hf x) by apply list_elem_of_here.
  apply IH. intros y Hy. apply Hf. by apply list_elem_of_further.
Qed.

Lemma sum_list_const {A : Type} (n : nat) (f : A → nat) (l : list A) :
  (∀ x, x ∈ l → f x = n) → sum_list (f <$> l) = length l * n.
Proof.
  induction l as [|x l IH]; intros Hf; [done |].
  change (sum_list (f <$> x :: l)) with (f x + sum_list (f <$> l)).
  rewrite (Hf x) by apply list_elem_of_here.
  rewrite IH; [done |]. intros y Hy. apply Hf. by apply list_elem_of_further.
Qed.

Lemma key_elem_of (kv : string * value) (o : object) : kv ∈ o → kv.1 ∈ keys o.
Proof. intros Hin. unfold keys. by apply list_elem_of_fmap_2. Qed.

Lemma elem_of_obj_get (k : string) (v : value) (o : object) :
  wf_object o → (k, v) ∈ o → obj_get k o = Some v.
Proof.
  unfold wf_object, keys. induction o as [|[k' v'] o IH]; intros Hwf Hin.
  - by apply elem_of_nil in Hin.
  - rewrite fmap_cons in Hwf. apply NoDup_cons in Hwf as [Hk' Hwf].
    simpl. apply elem_of_cons in Hin as [[= -> ->] | Hin].
    + by rewrite decide_True.
    + rewrite decide_False; [by apply IH |].
      intros ->. apply Hk'. by apply (list_elem_of_fmap_2 fst _ (k, v)).
Qed.

(** A property of the merge under a key the target lacks comes from the
    source. *)
Lemma elem_of_assign_from (kv : string * value) (target source : object) :
  wf_object target → wf_object source →
  kv ∈ assign_from target source → obj_get kv.1 target = None → kv ∈ source.
Proof.
  intros Ht Hs Hin Hnone. destruct kv as [k v]. simpl in *.
  assert (Hget : obj_get k (assign_from target source) = Some v).
  { apply elem_of_obj_get; [by apply wf_assign_from | done]. }
  destruct (obj_get k source) as [v'|] eqn:E.
  - rewrite (obj_get_assign_Some k v' target source) in Hget by done.
    injection Hget as ->. by apply obj_get_elem_of.
  - rewrite obj_get_assign_None in Hget by done. congruence.
Qed.

Section CalibreProperties.
Context `{Lib} `{ProcessHost}.

Lemma wp_child_process_exec (command : string) (options : loc) (w : world)
    (Q : callback_args ExecException → world → Prop) :
  (∀ w', self w' = self w → heap w' = heap w → console w' = console w →
         spawned w' = spawned w ++ [(command, deref (heap w) options)] →
         Q (host_answer (spawned w')) w') →
  wp (child_process_exec command options) w Q.
Proof.
  intros HQ. unfold wp, child_process_exec. simpl.
  by apply (HQ {| self := self w; heap := heap w; console := console w;
                  spawned := spawned w ++ [(command, deref (heap w) options)] |}).
Qed.

(** What [exec] does to the world, and the options object it hands to
    the host when the references it reads are allocated. *)
Lemma exec_wp (command : string) (options : option loc) (w : world) :
  wp (exec command options) w (fun r w' =>
    ∃ opts,
      r = callback (host_answer (spawned w ++ [(command, opts)])) ∧
      spawned w' = spawned w ++ [(command, opts)] ∧
      console w' = console w ∧ self w' = self w ∧ heap w ⊆ heap w' ∧
      (allocated (heap w) (execOptions (self w)) →
       (∀ l, options = Some l → allocated (heap w) l) →
       opts = assign_all [] [deref (heap w) (execOptions (self w));
                             from_option (deref (heap w)) [] options])).
Proof.
  unfold exec. apply wp_bind, wp_default_object.
  intros l w1 (Hself1 & Hcons1 & Hsp1) Hsub1 Hl.
  apply wp_bind, wp_get_this, wp_bind, wp_alloc.
  intros t w2 Hfresh Hheap2 (Hself2 & Hcons2 & Hsp2).
  apply wp_bind, wp_Object_assign.
  { rewrite Hheap2. exists []. apply lookup_insert_eq. }
  intros merged w3 Hheap3 (Hself3 & Hcons3 & Hsp3) Hmerged.
  apply wp_bind, wp_child_process_exec.
  intros w4 Hself4 Hheap4 Hcons4 Hsp4. apply wp_ret.
  exists merged.
  assert (Hd : deref (heap w3) t = merged).
  { rewrite Hheap3. apply deref_insert_eq. }
  rewrite Hd in Hsp4.
  assert (Hsp : spawned w4 = spawned w ++ [(command, merged)]) by congruence.
  repeat split; try congruence.
  - rewrite Hheap4, Hheap3, Hheap2, insert_insert_eq.
    etrans; [exact Hsub1 | by apply insert_subseteq].
  - intros Heo Hopts. destruct (Hl Hopts) as [Hal Hdl].
    assert (Heo1 : allocated (heap w1) (execOptions (self w)))
      by (by eapply allocated_subseteq).
    assert (Hne1 : t ≠ execOptions (self w)).
    { intros ->. destruct Heo1 as [? Heo1]. congruence. }
    assert (Hne2 : t ≠ l).
    { intros ->. destruct Hal as [? Hal]. congruence. }
    rewrite Hmerged.
    + rewrite Hself1, Hheap2, deref_insert_eq. simpl.
      rewrite !deref_insert_ne by done.
      by rewrite (deref_subseteq _ _ _ Hsub1 Heo), Hdl.
    + rewrite Hself1. by intros [-> | ->%list_elem_of_singleton]%elem_of_cons.
Qed.

(** What [run] does to the world; the command line it hands to [exec]
    when the options reference is allocated. *)
Lemma run_wp (command : string) (args : args_param) (options : option loc)
    (w : world) :
  wp (run command args options) w (fun r w' =>
    ∃ cmd opts,
      r = callback (host_answer (spawned w ++ [(cmd, opts)])) ∧
      spawned w' = spawned w ++ [(cmd, opts)] ∧
      console w' = console w ++
        (if log (self w) then [["~~node-calibre:"; cmd]] else []) ∧
      self w' = self w ∧ heap w ⊆ heap w' ∧
      ((∀ l, options_ref args options = Some l → allocated (heap w) l) →
       cmd = execString command (supplied_args args)
               (with_defaults (self w) command
                  (supplied_options (heap w) args options))) ∧
      (allocated (heap w) (execOptions (self w)) →
       opts = assign_all [] [deref (heap w) (execOptions (self w)); []])).
Proof.
  unfold run. cbv zeta. apply wp_bind, wp_default_object.
  intros l w1 (Hself1 & Hcons1 & Hsp1) Hsub1 Hl.
  match goal with
  | |- context [let '(x, y) := ?X in _] => destruct X as [a lo] eqn:E
  end.
  assert (Ha : a = supplied_args args) by (destruct args; by injection E as <- <-).
  assert (Hlo : (∀ l, options_ref args options = Some l → allocated (heap w) l) →
                allocated (heap w1) lo ∧
                deref (heap w1) lo = supplied_options (heap w) args options).
  { unfold supplied_options.
    destruct args as [|a'|o]; injection E as <- <-; simpl; try exact Hl.
    intros Ho. specialize (Ho o eq_refl). split.
    - by eapply allocated_subseteq.
    - by apply deref_subseteq. }
  clear E Hl. apply wp_bind, wp_get_this. rewrite Hself1. apply wp_bind.
  eapply (wp_mono _ _ (fun lo' w3 =>
    same_but_heap w1 w3 ∧ heap w1 ⊆ heap w3 ∧
    ((∀ l, options_ref args options = Some l → allocated (heap w) l) →
     deref (heap w3) lo' =
       with_defaults (self w) command (supplied_options (heap w) args options)))).
  { unfold with_defaults. destruct (startsWith command "calibredb").
    - apply wp_bind, wp_alloc. intros t w2 Hfresh Hheap2 Hsame2.
      apply wp_Object_assign.
      { rewrite Hheap2. eexists. apply lookup_insert_eq. }
      intros merged w3 Hheap3 Hsame3 Hmerged. split; [| split].
      + by eapply same_but_heap_trans.
      + rewrite Hheap3, Hheap2, insert_insert_eq. by apply insert_subseteq.
      + intros Hopts. destruct (Hlo Hopts) as [Hal Hd].
        assert (Hne : t ≠ lo).
        { intros ->. destruct Hal as [? Hal]. congruence. }
        rewrite Hheap3, deref_insert_eq, Hmerged.
        * rewrite Hheap2, deref_insert_eq. simpl.
          by rewrite deref_insert_ne, Hd.
        * by intros ->%list_elem_of_singleton.
    - apply wp_ret. split; [apply same_but_heap_refl | split; [done |]].
      intros Hopts. by destruct (Hlo Hopts). }
  intros lo' w3 ((Hself3 & Hcons3 & Hsp3) & Hsub3 & Hd3).
  apply wp_bind, wp_read, wp_bind.
  set (cmd := execString command a (deref (heap w3) lo')).
  eapply (wp_mono _ _ (fun _ w4 =>
    self w4 = self w3 ∧ heap w4 = heap w3 ∧ spawned w4 = spawned w3 ∧
    console w4 = console w3 ++
      (if log (self w) then [["~~node-calibre:"; cmd]] else []))).
  { destruct (log (self w)).
    - apply wp_console_log. by intros w4 ? ? ? ?.
    - apply wp_ret. by rewrite app_nil_r. }
  intros [] w4 (Hself4 & Hheap4 & Hsp4 & Hcons4).
  eapply wp_mono; [apply exec_wp |].
  intros r w5 (opts & Hr & Hsp5 & Hcons5 & Hself5 & Hsub5 & Hopts5).
  assert (Hsub : heap w ⊆ heap w4).
  { rewrite Hheap4. etrans; [exact Hsub1 | exact Hsub3]. }
  exists cmd, opts. repeat split; try congruence.
  - by etrans.
  - intros Hopts. unfold cmd. by rewrite Ha, Hd3.
  - intros Heo. rewrite Hopts5.
    + rewrite Hself4, Hself3, Hself1.
      by rewrite (deref_subseteq _ _ _ Hsub Heo).
    + rewrite Hself4, Hself3, Hself1. by eapply allocated_subseteq.
    + done.
Qed.

Lemma option_token_null (key : string) : option_token key VNull = flag_of key.
Proof. done. Qed.

Lemma option_token_value (key : string) (v : value) :
  v ≠ VNull → option_token key v = flag_of key +:+ " " +:+ quoted (escape v).
Proof. by destruct v. Qed.

Lemma option_entry_scalar (key : string) (v : value) :
  (∀ elems, v ≠ VArr elems) →
  option_entry (key, v) = option_token (camelToKebab key) v.
Proof.
  intros Hv. unfold option_entry. simpl.
  destruct v; try done. by destruct (Hv elems).
Qed.

Lemma option_entry_values (kv : string * value) :
  option_entry kv
  = join " " (map (option_token (camelToKebab kv.1)) (values_of kv.2)).
Proof. unfold option_entry, values_of. by destruct kv.2. Qed.

Lemma execString_entry (command : string) (args : list value)
    (before : object) (kv : string * value) (after : object) :
  execString command args (before ++ kv :: after) =
  join " " ((command :: map (fun arg => quoted (escape arg)) args
                     ++ map option_entry before)
            ++ option_entry kv :: map option_entry after).
Proof.
  unfold execString. rewrite map_app. simpl. by rewrite <- (assoc_L (++)).
Qed.

(** The rendering of an entry of the options is a segment of the
    command line. *)
Lemma includes_entry (command : string) (args : list value) (options : object)
    (kv : string * value) (pat rest : string) :
  kv ∈ options → option_entry kv = pat +:+ rest →
  includes (execString command args options) pat = true.
Proof.
  intros (before & after & ->)%list_elem_of_split Hkv.
  rewrite execString_entry.
  destruct (join_segment " "
    (command :: map (fun arg => quoted (escape arg)) args ++ map option_entry before)
    (option_entry kv) (map option_entry after)) as (a & b & ->).
  rewrite Hkv, append_assoc. apply includes_append.
Qed.

(** C3: [exec] resolves with the captured standard output exactly when
    the host reports no error and standard error is empty; it rejects
    with the host's error object whenever the host reports one; it
    rejects with the standard-error text when there is no error and
    that text is not empty.  Each call hands one command to the host
    and settles in exactly one of these three ways. *)
Theorem exec_settles (command : string) (options : option loc) (w : world) :
  let r := (exec command options w).1 in
  let w' := (exec command options w).2 in
  let a := host_answer (spawned w') in
  (∃ opts, spawned w' = spawned w ++ [(command, opts)]) ∧
  (r = Resolved (stdout a) ↔ err a = None ∧ stderr a = EmptyString) ∧
  (∀ e, err a = Some e → r = Rejected (RejectError e)) ∧
  (err a = None → stderr a ≠ EmptyString → r = Rejected (RejectString (stderr a))) ∧
  let resolves := r = Resolved (stdout a) in
  let rejects_error := ∃ e, err a = Some e ∧ r = Rejected (RejectError e) in
  let rejects_stderr := stderr a ≠ EmptyString ∧ r = Rejected (RejectString (stderr a)) in
  (resolves ∧ ¬ rejects_error ∧ ¬ rejects_stderr) ∨
  (¬ resolves ∧ rejects_error ∧ ¬ rejects_stderr) ∨
  (¬ resolves ∧ ¬ rejects_error ∧ rejects_stderr).
Proof.
  destruct (exec_wp command options w) as (opts & Hr & Hsp & _).
  cbv zeta. rewrite Hsp, Hr.
  remember (host_answer (spawned w ++ [(command, opts)])) as a eqn:Ea.
  clear Ea Hr Hsp.
  split; [by exists opts |].
  unfold callback. destruct a as [[e|] out [|c errs]]; simpl.
  - split; [split; [done | by intros [? _]] |].
    split; [by intros ? [= ->] |]. split; [done |].
    right; left. split; [done |]. split; [by exists e | by intros [? _]].
  - split; [split; [done | by intros [? _]] |].
    split; [by intros ? [= ->] |]. split; [done |].
    right; left. split; [done |]. split; [by exists e | by intros [_ ?]].
  - split; [done |]. split; [done |]. split; [done |].
    left. split; [done |]. split; [by intros (? & ? & _) | by intros [? _]].
  - split; [split; [done | by intros [_ ?]] |].
    split; [done |]. split; [done |].
    right; right. split; [done |]. split; [by intros (? & ? & _) | done].
Qed.

(** C4: [ebookConvert(i, f, o)] is the call
    [run('ebook-convert', [i, i + '.' + f], o)]; when that call
    resolves, with whatever value, [ebookConvert] resolves with the
    string [i + '.' + f]; when it rejects, [ebookConvert] rejects with
    the same value. *)
Theorem ebookConvert_resolves_output (input format : string)
    (options : option loc) (w : world) :
  let output := input +:+ "." +:+ format in
  let ran := run "ebook-convert" (ArgsArray [VStr input; VStr output]) options w in
  let converted := ebookConvert input format options w in
  converted.2 = ran.2 ∧
  (∀ v, ran.1 = Resolved v → converted.1 = Resolved output) ∧
  (∀ e, ran.1 = Rejected e → converted.1 = Rejected e).
Proof.
  cbv zeta. unfold ebookConvert, mbind, M_bind, mret, M_ret.
  destruct (run _ _ _ w) as [r w']. simpl.
  split; [done |]. split; by intros ? ->.
Qed.

(** C5: when the second parameter of [run] is a plain mapping, that
    mapping is the options mapping and there are no positional
    arguments, whatever the third parameter: the command line is the
    one of [run(command, [], mapping)]. *)
Theorem run_mapping_second_parameter (command : string) (mapping : loc)
    (third : option loc) (w : world) :
  allocated (heap w) mapping →
  let shaped := run command (ArgsObject mapping) third w in
  let plain := run command (ArgsArray []) (Some mapping) w in
  let cmd :=
    execString command [] (with_defaults (self w) command (deref (heap w) mapping)) in
  (spawned shaped.2).*1 = (spawned w).*1 ++ [cmd] ∧
  (spawned plain.2).*1 = (spawned w).*1 ++ [cmd] ∧
  console shaped.2 = console plain.2 ∧
  (allocated (heap w) (execOptions (self w)) →
   spawned shaped.2 = spawned plain.2 ∧ shaped.1 = plain.1).
Proof.
  intros Hmap. cbv zeta.
  destruct (run_wp command (ArgsObject mapping) third w)
    as (c1 & o1 & Hr1 & Hsp1 & Hcons1 & _ & _ & Hc1 & Ho1).
  destruct (run_wp command (ArgsArray []) (Some mapping) w)
    as (c2 & o2 & Hr2 & Hsp2 & Hcons2 & _ & _ & Hc2 & Ho2).
  rewrite Hsp1, Hsp2, Hcons1, Hcons2, Hr1, Hr2.
  rewrite Hc1, Hc2 by (by intros ? [= <-]).
  rewrite !fmap_app. simpl. unfold supplied_options. simpl.
  split; [done |]. split; [done |]. split; [done |].
  intros Heo. by rewrite Ho1, Ho2.
Qed.

(** C6: an option whose value, or whose sequence element, is [null]
    gives the bare flag, with no value after it; any other value gives
    the flag, one space, and the escaped value between two double-quote
    characters (code 34). *)
Theorem null_value_bare_flag (command : string) (args : list value)
    (before after : object) (key : string) :
  let flag := flag_of (camelToKebab key) in
  let q := String "034"%char EmptyString in
  let emits := fun (v : value) (tokens : list string) =>
    execString command args (before ++ (key, v) :: after) =
    join " " ((command :: map (fun arg => quoted (escape arg)) args
                       ++ map option_entry before)
              ++ join " " tokens :: map option_entry after) in
  emits VNull [flag] ∧
  (∀ v, v ≠ VNull → (∀ elems, v ≠ VArr elems) →
        emits v [flag +:+ " " +:+ q +:+ escape v +:+ q]) ∧
  (∀ elems, ∃ tokens,
      emits (VArr elems) tokens ∧ length tokens = length elems ∧
      ∀ i e, elems !! i = Some e →
        (e = VNull → tokens !! i = Some flag) ∧
        (e ≠ VNull → tokens !! i = Some (flag +:+ " " +:+ q +:+ escape e +:+ q))).
Proof.
  cbv zeta. split; [| split].
  - by rewrite execString_entry.
  - intros v Hnull Hscalar. rewrite execString_entry, option_entry_scalar by done.
    by rewrite option_token_value.
  - intros elems. exists (map (option_token (camelToKebab key)) elems).
    split; [by rewrite execString_entry |].
    split; [by rewrite length_map |].
    intros i e He. change (map ?f elems) with (f <$> elems).
    rewrite list_lookup_fmap, He. simpl. split.
    + by intros ->.
    + intros Hnull. by rewrite option_token_value.
Qed.

(** C7: an option whose value is a sequence gives its flag once per
    element, in the order of the elements; the options
    [{ authors: ['A', 'B'] }] give the flag --authors with A and then
    the flag --authors with B, each value between two double-quote
    characters (code 34). *)
Theorem sequence_value_repeats_flag (key : string) (elems : list value) :
  let flag := flag_of (camelToKebab key) in
  (∃ tokens,
      option_entry (key, VArr elems) = join " " tokens ∧
      length tokens = length elems ∧
      ∀ i e, elems !! i = Some e →
        tokens !! i = Some (option_token (camelToKebab key) e) ∧
        startsWith (option_token (camelToKebab key) e) flag = true) ∧
  (camelToKebab "authors" = "authors" →
   escape (VStr "A") = "A" → escape (VStr "B") = "B" →
   ∀ command,
     let q := String "034"%char EmptyString in
     execString command [] [("authors", VArr [VStr "A"; VStr "B"])] =
     command +:+ " --authors " +:+ q +:+ "A" +:+ q
             +:+ " --authors " +:+ q +:+ "B" +:+ q).
Proof.
  cbv zeta. split.
  - exists (map (option_token (camelToKebab key)) elems).
    split; [done |]. split; [by rewrite length_map |].
    intros i e He. change (map ?f elems) with (f <$> elems).
    rewrite list_lookup_fmap, He. split; [done |].
    assert (e = VNull ∨ e ≠ VNull) as [-> | Hnull] by (destruct e; auto).
    + rewrite option_token_null, <- (append_empty_r (flag_of _)) at 1.
      apply startsWith_append.
    + rewrite option_token_value by done. apply startsWith_append.
  - intros Hkey HA HB command.
    unfold execString, option_entry. simpl.
    rewrite Hkey. unfold option_token. rewrite HA, HB. done.
Qed.

Lemma constructor_library (copts : option ConstructorOptions)
    (h : gmap loc object) :
  library (constructor copts h).1 = default EmptyString (copts ≫= opt_library).
Proof.
  unfold constructor.
  by destruct copts as [[[eo|] [[|c lib]|] lg]|].
Qed.

Lemma library_path_entry (v : value) :
  camelToKebab "libraryPath" = "library-path" → v ≠ VNull →
  (∀ elems, v ≠ VArr elems) →
  option_entry ("libraryPath", v) = "--library-path " +:+ quoted (escape v).
Proof.
  intros Hkey Hnull Hscalar.
  rewrite option_entry_scalar, Hkey, option_token_value by done. done.
Qed.

(** The command line of a calibredb command whose caller gives no
    [libraryPath] has the flag with the path of the instance. *)
Lemma run_default_library_path (command : string) (args : args_param)
    (options : option loc) (w : world) :
  camelToKebab "libraryPath" = "library-path" →
  startsWith command "calibredb" = true →
  (∀ l, options_ref args options = Some l → allocated (heap w) l) →
  obj_get "libraryPath" (supplied_options (heap w) args options) = None →
  ∃ cmd opts,
    spawned (run command args options w).2 = spawned w ++ [(cmd, opts)] ∧
    includes cmd ("--library-path " +:+ quoted (escape (VStr (library (self w)))))
      = true.
Proof.
  intros Hkey Hcal Hopts Hnone.
  destruct (run_wp command args options w)
    as (cmd & opts & _ & Hsp & _ & _ & _ & Hcmd & _).
  exists cmd, opts. split; [done |].
  rewrite Hcmd by done. unfold with_defaults. rewrite Hcal.
  eapply (includes_entry _ _ _ ("libraryPath", VStr (library (self w))) _ EmptyString).
  - apply obj_get_elem_of. rewrite obj_get_assign_None by done. done.
  - rewrite library_path_entry by done. by rewrite append_empty_r.
Qed.

(** C1, as the code has it: on an instance constructed with the default
    (empty) library path, a calibredb command whose caller supplies no
    [libraryPath] option is serialized with the flag --library-path,
    followed by the escaped empty path between double quotes. *)
Theorem default_library_path_flag (copts : option ConstructorOptions)
    (h : gmap loc object) (command : string) (args : args_param)
    (options : option loc) (w : world) :
  camelToKebab "libraryPath" = "library-path" →
  default EmptyString (copts ≫= opt_library) = EmptyString →
  self w = (constructor copts h).1 →
  startsWith command "calibredb" = true →
  (∀ l, options_ref args options = Some l → allocated (heap w) l) →
  obj_get "libraryPath" (supplied_options (heap w) args options) = None →
  ∃ cmd opts,
    spawned (run command args options w).2 = spawned w ++ [(cmd, opts)] ∧
    includes cmd ("--library-path " +:+ quoted (escape (VStr EmptyString))) = true ∧
    includes cmd "--library-path" = true.
Proof.
  intros Hkey Hdefault Hself Hcal Hopts Hnone.
  destruct (run_wp command args options w)
    as (cmd & opts & _ & Hsp & _ & _ & _ & Hcmd & _).
  exists cmd, opts. split; [done |].
  assert (Hlib : library (self w) = EmptyString)
    by (by rewrite Hself, constructor_library).
  rewrite Hcmd by done. unfold with_defaults. rewrite Hcal, Hlib.
  assert (Hin : ("libraryPath", VStr EmptyString) ∈
                assign_from [("libraryPath", VStr EmptyString)]
                  (supplied_options (heap w) args options)).
  { apply obj_get_elem_of. by rewrite obj_get_assign_None. }
  split.
  - eapply (includes_entry _ _ _ _ _ EmptyString); [exact Hin |].
    rewrite library_path_entry by done. by rewrite append_empty_r.
  - eapply (includes_entry _ _ _ _ _
              (" " +:+ quoted (escape (VStr EmptyString)))); [exact Hin |].
    by rewrite library_path_entry.
Qed.

Lemma occurrences_quoted (s p : string) :
  p ≠ EmptyString → includes p (String Chars.dquote EmptyString) = false →
  includes s p = false → occurrences (quoted s) p = 0.
Proof.
  intros Hne Hq Hs. unfold quoted.
  rewrite <- (append_nil_l (String Chars.dquote _)).
  rewrite !occurrences_app_sep, occurrences_empty by done.
  by rewrite includes_false_occurrences.
Qed.

(** A token has the text as often as its flag has, when the escaped
    value has it nowhere. *)
Lemma occurrences_option_token (key : string) (e : value) (p : string) :
  p ≠ EmptyString → includes p " " = false →
  includes p (String Chars.dquote EmptyString) = false →
  includes (escape e) p = false →
  occurrences (option_token key e) p = occurrences (flag_of key) p.
Proof.
  intros Hne Hsp Hq He.
  assert (e = VNull ∨ e ≠ VNull) as [-> | Hnull] by (destruct e; auto); [done |].
  rewrite option_token_value by done.
  change (" " +:+ ?x) with (String " " x).
  rewrite occurrences_app_sep, occurrences_quoted by done. lia.
Qed.

Lemma occurrences_option_entry (kv : string * value) (p : string) :
  p ≠ EmptyString → includes p " " = false →
  includes p (String Chars.dquote EmptyString) = false →
  (∀ e, e ∈ values_of kv.2 → includes (escape e) p = false) →
  occurrences (option_entry kv) p
  = length (values_of kv.2) * occurrences (flag_of (camelToKebab kv.1)) p.
Proof.
  intros Hne Hsp Hq Hes. rewrite option_entry_values.
  change (join " ") with (join (String " " EmptyString)).
  rewrite occurrences_join by done.
  change (map ?f ?l) with (f <$> l). rewrite <- list_fmap_compose.
  apply sum_list_const. intros e He. simpl.
  apply occurrences_option_token; auto.
Qed.

Lemma occurrences_execString (command : string) (args : list value)
    (options : object) (p : string) :
  p ≠ EmptyString → includes p " " = false →
  occurrences (execString command args options) p
  = occurrences command p
    + sum_list ((fun arg => occurrences (quoted (escape arg)) p) <$> args)
    + sum_list ((fun kv => occurrences (option_entry kv) p) <$> options).
Proof.
  intros Hne Hsp. unfold execString.
  change (join " ") with (join (String " " EmptyString)).
  rewrite occurrences_join by done.
  change (map ?f ?l) with (f <$> l).
  rewrite fmap_cons, fmap_app, <- !list_fmap_compose.
  change (sum_list (?x :: ?l)) with (x + sum_list l).
  rewrite sum_list_with_app. exact (Nat.add_assoc _ _ _).
Qed.

(** C2, as the code has it: for a calibredb command the serialized
    options have exactly one [libraryPath] entry, with the caller's
    value when the caller supplies one and with the path of the
    instance otherwise (the default is overridden, not added).  A value
    that is neither [null] nor a sequence is in the command line as
    --library-path, a space, and the escaped value between two
    double-quote characters (code 34).  When the text --library-path
    is nowhere else in the call (command name, escaped arguments, other
    options, escaped path), the command line has the flag once per
    element of that value: exactly once for a value that is not a
    sequence. *)
Theorem library_path_default_and_override (command : string)
    (args : args_param) (options : option loc) (w : world) :
  camelToKebab "libraryPath" = "library-path" →
  startsWith command "calibredb" = true →
  (∀ l, options_ref args options = Some l → allocated (heap w) l) →
  let supplied := supplied_options (heap w) args options in
  let used :=
    default (VStr (library (self w))) (obj_get "libraryPath" supplied) in
  let q := String "034"%char EmptyString in
  wf_object supplied →
  ∃ cmd opts merged,
    spawned (run command args options w).2 = spawned w ++ [(cmd, opts)] ∧
    cmd = execString command (supplied_args args) merged ∧
    filter (fun kv => kv.1 = "libraryPath") merged = [("libraryPath", used)] ∧
    (obj_get "libraryPath" supplied = None →
     includes cmd ("--library-path " +:+ q
                     +:+ escape (VStr (library (self w))) +:+ q) = true) ∧
    (used ≠ VNull → (∀ elems, used ≠ VArr elems) →
     includes cmd ("--library-path " +:+ q +:+ escape used +:+ q) = true) ∧
    (includes command "--library-path" = false →
     (∀ a, a ∈ supplied_args args → includes (escape a) "--library-path" = false) →
     (∀ kv, kv ∈ supplied → kv.1 ≠ "libraryPath" →
            includes (option_entry kv) "--library-path" = false) →
     (∀ e, e ∈ values_of used → includes (escape e) "--library-path" = false) →
     occurrences cmd "--library-path" = length (values_of used) ∧
     ((∀ elems, used ≠ VArr elems) → occurrences cmd "--library-path" = 1)).
Proof.
  intros Hkey Hcal Hopts. cbv zeta. intros Hwf.
  destruct (run_wp command args options w)
    as (cmd & opts & _ & Hsp & _ & _ & _ & Hcmd & _).
  specialize (Hcmd Hopts). unfold with_defaults in Hcmd. rewrite Hcal in Hcmd.
  set (supplied := supplied_options (heap w) args options) in *.
  set (used := default (VStr (library (self w))) (obj_get "libraryPath" supplied)).
  set (merged := assign_from [("libraryPath", VStr (library (self w)))] supplied) in *.
  assert (Hwfm : wf_object merged).
  { apply wf_assign_from. unfold wf_object. simpl. apply NoDup_singleton. }
  assert (Hget : obj_get "libraryPath" merged = Some used).
  { unfold used, merged. destruct (obj_get "libraryPath" supplied) as [v|] eqn:E.
    - by apply obj_get_assign_Some.
    - by rewrite obj_get_assign_None. }
  assert (Hscalar : used ≠ VNull → (∀ elems, used ≠ VArr elems) →
            includes cmd ("--library-path " +:+ quoted (escape used)) = true).
  { intros Hnull Hseq. rewrite Hcmd.
    eapply (includes_entry _ _ _ ("libraryPath", used) _ EmptyString).
    - by apply obj_get_elem_of.
    - rewrite library_path_entry by done. by rewrite append_empty_r. }
  exists cmd, opts, merged.
  split; [done |]. split; [done |]. split; [by apply filter_key |].
  split; [| split; [exact Hscalar |]].
  { intros Hnone. unfold used in Hscalar. rewrite Hnone in Hscalar.
    by apply Hscalar. }
  intros Hcommand Hargs Hothers Hused.
  assert (Hcount : occurrences cmd "--library-path" = length (values_of used)).
  { rewrite Hcmd, occurrences_execString by done.
    rewrite (includes_false_occurrences command) by done.
    rewrite sum_list_zero.
    2: { intros a Ha. by apply occurrences_quoted, Hargs. }
    destruct (list_elem_of_split _ _ (obj_get_elem_of _ _ _ Hget))
      as (before & after & Hsplit).
    assert (Hkeys : ("libraryPath" ∉ keys before) ∧ ("libraryPath" ∉ keys after)).
    { unfold wf_object, keys in Hwfm. rewrite Hsplit, fmap_app, fmap_cons in Hwfm.
      apply NoDup_app in Hwfm as (_ & Hdisj & [? _]%NoDup_cons).
      split; [| done]. intros Hin. apply (Hdisj _ Hin), list_elem_of_here. }
    destruct Hkeys as [Hbefore Hafter].
    assert (Hother : ∀ kv, kv ∈ before ++ after →
              occurrences (option_entry kv) "--library-path" = 0).
    { intros kv Hkv. apply includes_false_occurrences.
      assert (Hne : kv.1 ≠ "libraryPath").
      { intros E. apply elem_of_app in Hkv as [Hkv | Hkv];
          apply key_elem_of in Hkv; rewrite E in Hkv; done. }
      apply Hothers; [| done].
      apply (elem_of_assign_from kv [("libraryPath", VStr (library (self w)))]).
      - unfold wf_object. simpl. apply NoDup_singleton.
      - done.
      - fold merged. rewrite Hsplit.
        apply elem_of_app in Hkv as [Hkv | Hkv];
          [by apply elem_of_app; left
          | by apply elem_of_app; right; apply list_elem_of_further].
      - simpl. by rewrite decide_False. }
    rewrite Hsplit, fmap_app, fmap_cons, sum_list_with_app.
    change (sum_list (?x :: ?l)) with (x + sum_list l).
    rewrite !sum_list_zero.
    2: { intros kv Hkv. apply Hother, elem_of_app. by right. }
    2: { intros kv Hkv. apply Hother, elem_of_app. by left. }
    rewrite occurrences_option_entry by done.
    simpl. rewrite Hkey. change (occurrences (flag_of "library-path") _) with 1.
    lia. }
  split; [exact Hcount |].
  intros Hseq. rewrite Hcount. destruct used; try done. by destruct (Hseq elems).
Qed.

(** One call leaves the instance as it was and changes no object of the
    store: it only adds objects. *)
Lemma perform_frame (c : call) (w : world) :
  wp (perform c) w (fun _ w' => self w' = self w ∧ heap w ⊆ heap w').
Proof.
  destruct c as [command options | command args options | input format options];
    simpl.
  - eapply wp_mono; [apply exec_wp |]. by intros r w' (? & _ & _ & _ & ? & ? & _).
  - eapply wp_mono; [apply run_wp |]. by intros r w' (? & ? & _ & _ & _ & ? & ? & _).
  - unfold ebookConvert. apply wp_bind.
    eapply wp_mono; [apply run_wp |].
    intros r w' (? & ? & _ & _ & _ & ? & ? & _). by apply wp_ret.
Qed.

(** C8: whatever the sequence of [run], [exec] and [ebookConvert]
    calls, the fields of the instance are the same afterwards, and every
    object of the store, the execution options of the instance and the
    option mappings of the callers among them, has the content it had:
    the merges of [exec] and of the calibredb default go to objects
    that did not exist before the call. *)
Theorem configuration_preserved (calls : list call) (w : world) :
  let w' := (perform_all calls w).2 in
  self w' = self w ∧
  (∀ l o, heap w !! l = Some o → heap w' !! l = Some o) ∧
  (allocated (heap w) (execOptions (self w)) →
   deref (heap w') (execOptions (self w')) = deref (heap w) (execOptions (self w))).
Proof.
  cbv zeta.
  assert (Hframe : wp (perform_all calls) w
                     (fun _ w' => self w' = self w ∧ heap w ⊆ heap w')).
  { revert w. induction calls as [|c calls IH]; intros w; simpl.
    - by apply wp_ret.
    - apply wp_bind. eapply wp_mono; [apply perform_frame |].
      intros r w1 [Hself1 Hsub1]. apply wp_bind.
      eapply wp_mono; [apply IH |].
      intros rs w2 [Hself2 Hsub2]. apply wp_ret.
      split; [congruence | by etrans]. }
  destruct Hframe as [Hself Hsub].
  split; [done |]. split.
  - intros l o Hl. by eapply lookup_weaken.
  - intros Heo. rewrite Hself. by apply deref_subseteq.
Qed.

Lemma new_Calibre_fields (copts : option ConstructorOptions) (h : gmap loc object) :
  self (new_Calibre copts h) = (constructor copts h).1 ∧
  heap (new_Calibre copts h) = (constructor copts h).2 ∧
  console (new_Calibre copts h) = [] ∧
  spawned (new_Calibre copts h) = [].
Proof. unfold new_Calibre. by destruct (constructor copts h). Qed.

Lemma constructor_supplied (copts : option ConstructorOptions)
    (h : gmap loc object) (l : loc) :
  copts ≫= opt_execOptions = Some l →
  execOptions (constructor copts h).1 = l ∧ (constructor copts h).2 = h.
Proof.
  unfold constructor.
  destruct copts as [[[eo|] lib lg]|]; simpl; intros E; by simplify_eq.
Qed.

Lemma constructor_default (copts : option ConstructorOptions) (h : gmap loc object) :
  copts ≫= opt_execOptions = None →
  execOptions (constructor copts h).1 = fresh (dom h) ∧
  (constructor copts h).2 = <[fresh (dom h) := [("maxBuffer", VNum 2048000)]]> h.
Proof.
  unfold constructor.
  destruct copts as [[[eo|] lib lg]|]; simpl; intros E; by simplify_eq.
Qed.

(** C10: an execution-options object given to the constructor becomes
    the [execOptions] of the instance as it is, with nothing merged into
    it: a property it lacks, the buffer cap included, is not among the
    options [exec] hands to the host; the default cap of 2000 * 1024 is
    there only when the constructor is given no such object. *)
Theorem constructor_execOptions_replaces_default
    (copts : option ConstructorOptions) (h : gmap loc object) (command : string) :
  let this := (constructor copts h).1 in
  let w := new_Calibre copts h in
  (∀ l supplied,
      copts ≫= opt_execOptions = Some l → h !! l = Some supplied →
      execOptions this = l ∧ heap w = h ∧
      ∃ opts, spawned (exec command None w).2 = [(command, opts)] ∧
              ∀ k, obj_get k supplied = None → obj_get k opts = None) ∧
  (copts ≫= opt_execOptions = None →
      h !! execOptions this = None ∧
      heap w !! execOptions this = Some [("maxBuffer", VNum 2048000)] ∧
      ∃ opts, spawned (exec command None w).2 = [(command, opts)] ∧
              obj_get "maxBuffer" opts = Some (VNum 2048000)).
Proof.
  cbv zeta.
  destruct (new_Calibre_fields copts h) as (Hself & Hheap & _ & Hspawned).
  destruct (exec_wp command None (new_Calibre copts h))
    as (opts & _ & Hsp & _ & _ & _ & Hopts).
  rewrite Hspawned in Hsp. rewrite Hself, Hheap in Hopts. rewrite Hheap.
  split.
  - intros l supplied Hl Hsupplied.
    destruct (constructor_supplied copts h l Hl) as [Heo Hh].
    rewrite Heo, Hh in *. split; [done |]. split; [done |].
    exists opts. split; [exact Hsp |].
    intros k Hk. rewrite Hopts; [| by eexists | done].
    unfold deref. rewrite Hsupplied. simpl.
    by rewrite (obj_get_assign_None k [] supplied).
  - intros Hnone.
    destruct (constructor_default copts h Hnone) as [Heo Hh].
    rewrite Heo, Hh in *.
    split; [apply fresh_unallocated |]. split; [apply lookup_insert_eq |].
    exists opts. split; [exact Hsp |].
    rewrite Hopts; [| eexists; apply lookup_insert_eq | done].
    by rewrite deref_insert_eq.
Qed.

End CalibreProperties.

(** ** The escaper and the shell *)












Section Examples.
#[local] Existing Instance SpecLib.lib.
#[local] Existing Instance Sample.host.

(** The command line of a conversion, with the helpers of the
    specification. *)
Example execString_ebook_convert :
  execString "ebook-convert" [VStr "book.epub"; VStr "book.mobi"] []
  = "ebook-convert " +:+ quoted "book.epub" +:+ " " +:+ quoted "book.mobi".
Proof. reflexivity. Qed.

(** An empty sequence gives an empty token: the space that joins it
    stays. *)
Example execString_empty_sequence :
  execString "calibredb list" [] [("fields", VArr []); ("s", VStr "a")]
  = "calibredb list  -s " +:+ quoted "a".
Proof. reflexivity. Qed.

(** C1 fails as stated: on an instance with the default library path,
    [run('calibredb list')] hands the host a command line that has the
    flag --library-path, with an empty value. *)
Lemma default_library_path_flag_counterexample :
  (spawned (run "calibredb list" ArgsOmitted None (new_Calibre None ∅)).2).*1
  = ["calibredb list --library-path " +:+ quoted EmptyString] ∧
  includes ("calibredb list --library-path " +:+ quoted EmptyString)
           "--library-path" = true.
Proof. by vm_compute. Qed.

Lemma default_library_path_flag_witness :
  ∃ cmd opts,
    spawned (run "calibredb add" (ArgsArray [VStr "book.epub"]) (Some 2%positive)
                 Sample.plain).2 = spawned Sample.plain ++ [(cmd, opts)] ∧
    includes cmd ("--library-path " +:+ quoted (escape (VStr EmptyString))) = true ∧
    includes cmd "--library-path" = true.
Proof.
  apply (default_library_path_flag None Sample.store).
  - reflexivity.
  - reflexivity.
  - reflexivity.
  - reflexivity.
  - intros l [= <-]. eexists. vm_compute. reflexivity.
  - reflexivity.
Defined.

(** C2 fails as stated: with the caller's [libraryPath] a sequence of
    two paths, the flag --library-path is there twice; it is there
    twice as well when the caller gives the path once under
    [libraryPath] and once under a key already in kebab case. *)
Lemma library_path_override_counterexample :
  (spawned (run "calibredb list" ArgsOmitted (Some 3%positive) Sample.configured).2).*1
  = ["calibredb list --library-path " +:+ quoted "/a"
       +:+ " --library-path " +:+ quoted "/b"] ∧
  occurrences ("calibredb list --library-path " +:+ quoted "/a"
                 +:+ " --library-path " +:+ quoted "/b")
              "--library-path" = 2 ∧
  (spawned (run "calibredb list" ArgsOmitted (Some 1%positive) Sample3.configured).2).*1
  = ["calibredb list --library-path " +:+ quoted "/mine"
       +:+ " --library-path " +:+ quoted "/x"] ∧
  occurrences ("calibredb list --library-path " +:+ quoted "/mine"
                 +:+ " --library-path " +:+ quoted "/x")
              "--library-path" = 2.
Proof. by vm_compute. Qed.

Lemma library_path_default_and_override_witness :
  let q := String "034"%char EmptyString in
  ∃ cmd opts,
    spawned (run "calibredb list" ArgsOmitted (Some 1%positive) Sample.configured).2
    = spawned Sample.configured ++ [(cmd, opts)] ∧
    includes cmd ("--library-path " +:+ q +:+ "/mine" +:+ q) = true ∧
    occurrences cmd "--library-path" = 1.
Proof.
  cbv zeta.
  destruct (library_path_default_and_override "calibredb list" ArgsOmitted
              (Some 1%positive) Sample.configured)
    as (cmd & opts & merged & Hsp & _ & _ & _ & Hscalar & Hcount).
  - reflexivity.
  - reflexivity.
  - intros l [= <-]. eexists. vm_compute. reflexivity.
  - apply (bool_decide_unpack _). vm_compute. exact I.
  - exists cmd, opts. split; [exact Hsp |]. split.
    + apply Hscalar; [discriminate | intros elems; discriminate].
    + apply Hcount.
      * reflexivity.
      * intros a Ha. by apply elem_of_nil in Ha.
      * intros kv Hkv Hne. vm_compute in Hkv.
        apply elem_of_cons in Hkv as [-> | Hkv]; [by destruct Hne |].
        apply elem_of_cons in Hkv as [-> | Hkv]; [reflexivity |].
        by apply elem_of_nil in Hkv.
      * intros e He. vm_compute in He.
        apply elem_of_cons in He as [-> | He]; [reflexivity |].
        by apply elem_of_nil in He.
      * intros elems; discriminate.
Defined.

Lemma run_mapping_second_parameter_witness :
  let shaped :=
    run "calibredb list" (ArgsObject 1%positive) (Some 2%positive) Sample.configured in
  let plain :=
    run "calibredb list" (ArgsArray []) (Some 1%positive) Sample.configured in
  allocated (heap Sample.configured) 1%positive ∧
  (spawned shaped.2).*1 = (spawned plain.2).*1 ∧
  (spawned shaped.2).*1
  = ["calibredb list --library-path " +:+ quoted "/mine" +:+ " -s " +:+ quoted "title"].
Proof.
  cbv zeta.
  assert (Hmap : allocated (heap Sample.configured) 1%positive)
    by (eexists; vm_compute; reflexivity).
  destruct (run_mapping_second_parameter "calibredb list" 1%positive
              (Some 2%positive) Sample.configured Hmap) as (Hshaped & Hplain & _).
  split; [exact Hmap |]. split.
  - exact (eq_trans Hshaped (eq_sym Hplain)).
  - exact Hshaped.
Defined.

Lemma null_value_bare_flag_witness :
  let q := String "034"%char EmptyString in
  execString "calibredb add" [VStr "book.epub"] [("dontNotifyGui", VNull)]
  = "calibredb add " +:+ q +:+ "book.epub" +:+ q +:+ " --dont-notify-gui" ∧
  execString "calibredb list" [] [("s", VStr "title")]
  = "calibredb list -s " +:+ q +:+ "title" +:+ q.
Proof.
  split.
  - exact (proj1 (null_value_bare_flag "calibredb add" [VStr "book.epub"] [] []
                    "dontNotifyGui")).
  - refine (proj1 (proj2 (null_value_bare_flag "calibredb list" [] [] [] "s"))
              (VStr "title") _ _); discriminate.
Defined.

Lemma sequence_value_repeats_flag_witness :
  let q := String "034"%char EmptyString in
  execString "calibredb add" [] [("authors", VArr [VStr "A"; VStr "B"])]
  = "calibredb add --authors " +:+ q +:+ "A" +:+ q
      +:+ " --authors " +:+ q +:+ "B" +:+ q.
Proof.
  apply (proj2 (sequence_value_repeats_flag "authors" [])); reflexivity.
Defined.

Lemma constructor_execOptions_replaces_default_witness :
  ∃ opts,
    spawned (exec "ebook-meta book.epub" None
               (new_Calibre (Some {| opt_execOptions := Some 4%positive;
                                     opt_library := None; opt_log := None |})
                            Sample.store)).2
    = [("ebook-meta book.epub", opts)] ∧
    obj_get "maxBuffer" opts = None.
Proof.
  destruct (proj1 (constructor_execOptions_replaces_default
                     (Some {| opt_execOptions := Some 4%positive;
                              opt_library := None; opt_log := None |})
                     Sample.store "ebook-meta book.epub")
                  4%positive [("cwd", VStr "/tmp")] eq_refl eq_refl)
    as (_ & _ & opts & Hsp & Hlacks).
  exists opts. split; [exact Hsp | apply Hlacks; reflexivity].
Defined.



Lemma exec_settles_witness :
  (exec "warn me" None Sample.plain).1 = Rejected (RejectString "deprecated") ∧
  (exec "false" None Sample.plain).1 = Rejected (RejectError "Command failed: false").
Proof.
  split.
  - refine (proj1 (proj2 (proj2 (proj2 (exec_settles "warn me" None Sample.plain))))
              _ _); [reflexivity | discriminate].
  - refine (proj1 (proj2 (proj2 (exec_settles "false" None Sample.plain)))
              "Command failed: false" _); reflexivity.
Defined.

Lemma ebookConvert_resolves_output_witness :
  (ebookConvert "x.epub" "mobi" None Sample.plain).1 = Resolved "x.epub.mobi".
Proof.
  refine (proj1 (proj2 (ebookConvert_resolves_output "x.epub" "mobi" None Sample.plain))
            ("ebook-convert " +:+ quoted "x.epub" +:+ " " +:+ quoted "x.epub.mobi") _).
  vm_compute. reflexivity.
Defined.

Lemma configuration_preserved_witness :
  let calls :=
    [CallRun "calibredb list" (ArgsObject 1%positive) None;
     CallExec "ebook-meta book.epub" (Some 4%positive);
     CallEbookConvert "x.epub" "mobi" (Some 2%positive)] in
  let after := (perform_all calls Sample.configured).2 in
  self after = self Sample.configured ∧
  heap after !! 1%positive = Some [("libraryPath", VStr "/mine"); ("s", VStr "title")] ∧
  heap after !! 4%positive = Some [("cwd", VStr "/tmp")].
Proof.
  cbv zeta.
  match goal with |- self (perform_all ?calls ?w).2 = _ ∧ _ =>
    destruct (configuration_preserved calls w) as [Hself Hheap]
  end.
  split; [exact Hself |]. split; apply (proj1 Hheap); reflexivity.
Defined.

End Examples.

(** * More properties of the class *)

(** ** The shape of a merge *)

Lemma override_cons_absent (k : string) (v : value) (source : object)
    (kv : string * value) :
  kv.1 ≠ k → override ((k, v) :: source) kv = override source kv.
Proof.
  intros Hne. unfold override. simpl.
  rewrite decide_False; [done | by intros ->].
Qed.

Lemma map_override_absent (k : string) (v : value) (source target : object) :
  k ∉ keys target →
  map (override ((k, v) :: source)) target = map (override source) target.
Proof.
  unfold keys. induction target as [|[k' x] target IH]; [done |].
  rewrite fmap_cons, not_elem_of_cons. intros [Hne Hk]. simpl.
  rewrite IH by done. f_equal. apply override_cons_absent. simpl.
  intros ->. by apply Hne.
Qed.

Lemma map_override_replace (k : string) (v : value) (source target : object) :
  wf_object target → k ∈ keys target → k ∉ keys source →
  map (override source) (obj_replace k v target)
  = map (override ((k, v) :: source)) target.
Proof.
  unfold wf_object, keys. intros Hwf Hin Hsrc.
  induction target as [|[k' x] target IH]; [done |].
  rewrite fmap_cons in Hwf, Hin. apply NoDup_cons in Hwf as [Hk' Hwf].
  simpl. case_decide as Hk; subst.
  - simpl. rewrite (map_override_absent k v source target) by done.
    f_equal. unfold override. simpl.
    rewrite decide_True by done.
    by rewrite (proj2 (obj_get_None k source)).
  - simpl. apply elem_of_cons in Hin as [-> | Hin]; [done |].
    rewrite IH by done. f_equal.
    symmetry. by apply override_cons_absent.
Qed.

Lemma keys_app (o1 o2 : object) : keys (o1 ++ o2) = keys o1 ++ keys o2.
Proof. unfold keys. apply fmap_app. Qed.

Lemma filter_ext_in {A : Type} (P Q : A → Prop)
    `{∀ x, Decision (P x)} `{∀ x, Decision (Q x)} (l : list A) :
  (∀ x, x ∈ l → (P x ↔ Q x)) → filter P l = filter Q l.
Proof.
  induction l as [|x l IH]; intros Hext; [done |].
  assert (Hl : filter P l = filter Q l).
  { apply IH. intros y Hy. apply Hext. by apply list_elem_of_further. }
  destruct (decide (P x)) as [HP | HP].
  - rewrite !filter_cons_True; [by f_equal | | done].
    apply Hext; [apply list_elem_of_here | done].
  - rewrite !filter_cons_False; [done | | done].
    intros HQ. apply HP, Hext; [apply list_elem_of_here | done].
Qed.

(** [Object.assign(target, source)], for a source with no array-index
    key: the properties of the target keep their places and take the
    values of the source; the new properties follow, in the order of the
    source. *)
Lemma assign_from_merged (target source : object) :
  wf_object target → wf_object source → plain_keys source →
  assign_from target source = merged_over target source.
Proof.
  unfold assign_from, merged_over. revert target.
  induction source as [|[k v] source IH]; intros target Ht Hs Hplain.
  - simpl. rewrite app_nil_r. unfold override. simpl.
    induction target as [|[k x] target IHt]; [done |].
    simpl. f_equal. apply IHt.
    unfold wf_object, keys in *. rewrite fmap_cons in Ht.
    by apply NoDup_cons in Ht as [_ Ht].
  - apply Forall_cons in Hplain as [Hk Hplain]. simpl in Hk.
    assert (Hs' : wf_object source ∧ k ∉ keys source).
    { unfold wf_object, keys in *. rewrite fmap_cons in Hs.
      by apply NoDup_cons in Hs as [? ?]. }
    destruct Hs' as [Hs' Hksrc].
    simpl. rewrite IH by (try done; by apply wf_object_set).
    unfold obj_set. destruct (obj_get k target) as [x|] eqn:Hget.
    + assert (Hin : k ∈ keys target).
      { apply key_elem_of with (kv := (k, x)). by apply obj_get_elem_of. }
      rewrite keys_replace, map_override_replace by done.
      f_equal. by rewrite filter_cons_False by (simpl; by intros Hnot).
    + assert (Hnotin : k ∉ keys target) by (by apply obj_get_None).
      unfold PropertyOrder.define. rewrite Hk.
      rewrite map_app, map_override_absent by done. simpl.
      rewrite filter_cons_True by done.
      rewrite <- (assoc_L (++)). f_equal. simpl. f_equal.
      * unfold override. simpl.
        by rewrite (proj2 (obj_get_None k source)).
      * apply filter_ext_in. intros kv Hkv. rewrite keys_app. simpl.
        rewrite not_elem_of_app, list_elem_of_singleton.
        split; [by intros [? _] |]. intros Hkt. split; [done |].
        intros E. apply Hksrc. rewrite <- E. by apply key_elem_of.
Qed.

Lemma merged_over_empty_target (source : object) : merged_over [] source = source.
Proof.
  unfold merged_over. simpl.
  induction source as [|kv source IH]; [done |].
  rewrite filter_cons_True by (simpl; apply not_elem_of_nil). by f_equal.
Qed.

Lemma merged_over_empty_source (target : object) : merged_over target [] = target.
Proof.
  unfold merged_over. rewrite app_nil_r.
  induction target as [|[k x] target IH]; [done |].
  simpl. by f_equal.
Qed.

Lemma obj_get_assign (k : string) (target source : object) :
  wf_object source →
  obj_get k (assign_from target source)
  = match obj_get k source with Some v => Some v | None => obj_get k target end.
Proof.
  intros Hwf. destruct (obj_get k source) as [v|] eqn:E.
  - by apply obj_get_assign_Some.
  - by apply obj_get_assign_None.
Qed.

(** ** The command line as a sequence of tokens *)

Lemma join_prefixed (sep x : string) (xs : list string) :
  join sep (x :: xs) = x +:+ prefixed sep xs.
Proof.
  revert x. induction xs as [|y xs IH]; intros x.
  - simpl. by rewrite append_empty_r.
  - rewrite join_cons by done. by rewrite IH.
Qed.

Lemma prefixed_app (sep : string) (xs ys : list string) :
  prefixed sep (xs ++ ys) = prefixed sep xs +:+ prefixed sep ys.
Proof.
  induction xs as [|x xs IH]; [done |].
  simpl. by rewrite IH, !append_assoc.
Qed.

Lemma prefixed_join (sep : string) (xs : list string) :
  xs ≠ [] → sep +:+ join sep xs = prefixed sep xs.
Proof.
  destruct xs as [|x xs]; [done |]. intros _. by rewrite join_prefixed.
Qed.

Section MoreProperties.
Context `{Lib} `{ProcessHost}.

Lemma execString_prefixed (command : string) (args : list value) (options : object) :
  execString command args options
  = command +:+ prefixed " " (map (fun arg => quoted (escape arg)) args)
            +:+ prefixed " " (map option_entry options).
Proof. unfold execString. by rewrite join_prefixed, prefixed_app. Qed.

Lemma prefixed_option_tokens (options : object) :
  Forall (fun kv => empty_sequence kv.2 = false) options →
  prefixed " " (map option_entry options) = prefixed " " (option_tokens options).
Proof.
  unfold option_tokens. induction options as [|kv options IH]; [done |].
  intros [Hkv Hrest]%Forall_cons. simpl.
  rewrite prefixed_app, <- IH by done. rewrite <- append_assoc. f_equal.
  rewrite option_entry_values. apply prefixed_join.
  destruct kv as [k v]. simpl in *. destruct v as [| | | | |[|e elems]|]; done.
Qed.

(** X1: the command line is the command followed by one token per
    argument and per option value, each after exactly one space, when no
    option has the empty sequence for value. *)
Theorem execString_tokens (command : string) (args : list value) (options : object) :
  Forall (fun kv => empty_sequence kv.2 = false) options →
  execString command args options
  = command +:+ prefixed " " (map (fun arg => quoted (escape arg)) args
                              ++ option_tokens options).
Proof.
  intros Hne. rewrite execString_prefixed, prefixed_option_tokens by done.
  by rewrite prefixed_app.
Qed.

(** X2: an option whose value is the empty sequence gives no flag, but
    its empty token is still joined: the command line is the one without
    that option, with one more space where the option stood. *)
Theorem execString_empty_sequence_space (command : string) (args : list value)
    (before after : object) (key : string) :
  let head := execString command args before in
  let tail := prefixed " " (map option_entry after) in
  execString command args (before ++ after) = head +:+ tail ∧
  execString command args (before ++ (key, VArr []) :: after)
  = head +:+ " " +:+ tail.
Proof.
  cbv zeta. rewrite !execString_prefixed, !map_app, !prefixed_app.
  split; [by rewrite !append_assoc |].
  simpl. by rewrite !append_assoc.
Qed.

(** X3: [exec] hands the host the options of the instance merged with
    the options of the call: a property of the call's options wins, a
    property only the instance has is kept. *)
Theorem exec_per_call_options_win (command : string) (options : loc) (w : world) :
  allocated (heap w) (execOptions (self w)) →
  allocated (heap w) options →
  wf_object (deref (heap w) (execOptions (self w))) →
  wf_object (deref (heap w) options) →
  ∃ opts,
    spawned (exec command (Some options) w).2 = spawned w ++ [(command, opts)] ∧
    ∀ k, obj_get k opts
         = match obj_get k (deref (heap w) options) with
           | Some v => Some v
           | None => obj_get k (deref (heap w) (execOptions (self w)))
           end.
Proof.
  intros Heo Hopt Hwfeo Hwfopt.
  destruct (exec_wp command (Some options) w)
    as (opts & _ & Hsp & _ & _ & _ & Hopts).
  exists opts. split; [exact Hsp |].
  intros k. rewrite Hopts; [| done | by intros ? [= <-]].
  simpl. rewrite !obj_get_assign by done. simpl.
  destruct (obj_get k (deref (heap w) options)); [done |].
  by destruct (obj_get k (deref (heap w) (execOptions (self w)))).
Qed.

(** X4: for option objects with no array-index key, the object [exec]
    hands the host has the properties of the instance's options in their
    order, overridden in place by the call's, and then the properties
    only the call has; with no options for the call it is a copy of the
    instance's options. *)
Theorem exec_options_order (command : string) (options : option loc) (w : world) :
  allocated (heap w) (execOptions (self w)) →
  (∀ l, options = Some l → allocated (heap w) l) →
  let instance := deref (heap w) (execOptions (self w)) in
  let per_call := from_option (deref (heap w)) [] options in
  wf_object instance → plain_keys instance →
  wf_object per_call → plain_keys per_call →
  ∃ opts,
    spawned (exec command options w).2 = spawned w ++ [(command, opts)] ∧
    opts = merged_over instance per_call ∧
    (options = None → opts = instance).
Proof.
  intros Heo Hopt. cbv zeta. intros Hwfi Hpi Hwfp Hpp.
  destruct (exec_wp command options w)
    as (opts & _ & Hsp & _ & _ & _ & Hopts).
  exists opts. split; [exact Hsp |].
  assert (Hshape : opts = merged_over (deref (heap w) (execOptions (self w)))
                                      (from_option (deref (heap w)) [] options)).
  { rewrite Hopts by done. simpl.
    rewrite (assign_from_merged [] _) by (try done; apply NoDup_nil_2).
    rewrite merged_over_empty_target. by apply assign_from_merged. }
  split; [exact Hshape |].
  intros ->. rewrite Hshape. simpl. apply merged_over_empty_source.
Qed.

(** X5: [run] logs only when the instance asks for it, and then one
    line: the marker and the very command line it hands the host;
    [exec] itself never logs. *)
Theorem run_logs_the_command (command : string) (args : args_param)
    (options : option loc) (w : world) :
  (∃ cmd opts,
     spawned (run command args options w).2 = spawned w ++ [(cmd, opts)] ∧
     console (run command args options w).2
     = console w ++ (if log (self w) then [["~~node-calibre:"; cmd]] else [])) ∧
  console (exec command options w).2 = console w.
Proof.
  split.
  - destruct (run_wp command args options w)
      as (cmd & opts & _ & Hsp & Hcons & _).
    by exists cmd, opts.
  - by destruct (exec_wp command options w) as (opts & _ & _ & Hcons & _).
Qed.

(** X6: for a command that does not start with calibredb, [run]
    serializes the arguments and options of the caller and nothing
    else: the library path of the instance plays no part. *)
Theorem run_other_command_no_default (command : string) (args : args_param)
    (options : option loc) (w : world) :
  startsWith command "calibredb" = false →
  (∀ l, options_ref args options = Some l → allocated (heap w) l) →
  ∃ opts,
    spawned (run command args options w).2
    = spawned w ++ [(execString command (supplied_args args)
                       (supplied_options (heap w) args options), opts)].
Proof.
  intros Hcal Hopts.
  destruct (run_wp command args options w)
    as (cmd & opts & _ & Hsp & _ & _ & _ & Hcmd & _).
  exists opts. rewrite Hsp, Hcmd by done.
  unfold with_defaults. by rewrite Hcal.
Qed.

(** X7: [ebookConvert] hands the host the command ebook-convert with
    two arguments, the input path and the input path with a dot and the
    format, then the options of the caller. *)
Theorem ebookConvert_command_line (input format : string) (options : option loc)
    (w : world) :
  (∀ l, options = Some l → allocated (heap w) l) →
  ∃ opts,
    spawned (ebookConvert input format options w).2
    = spawned w ++
      [("ebook-convert " +:+ quoted (escape (VStr input)) +:+ " "
          +:+ quoted (escape (VStr (input +:+ "." +:+ format)))
          +:+ prefixed " " (map option_entry
                              (from_option (deref (heap w)) [] options)),
        opts)].
Proof.
  intros Hopts.
  assert (Hw : (ebookConvert input format options w).2
               = (run "ebook-convert"
                    (ArgsArray [VStr input; VStr (input +:+ "." +:+ format)])
                    options w).2).
  { unfold ebookConvert, mbind, M_bind, mret, M_ret.
    by destruct (run _ _ _ w). }
  rewrite Hw.
  destruct (run_wp "ebook-convert"
              (ArgsArray [VStr input; VStr (input +:+ "." +:+ format)]) options w)
    as (cmd & opts & _ & Hsp & _ & _ & _ & Hcmd & _).
  exists opts. rewrite Hsp, Hcmd by done.
  unfold with_defaults, supplied_options. simpl.
  rewrite execString_prefixed. simpl. by rewrite !append_assoc.
Qed.

(** X8: for a calibredb command and caller options with no array-index
    key, the library path comes first among the options, with the
    caller's value when the caller gives one, wherever the caller put
    it; the other options of the caller follow in their order. *)
Theorem calibredb_library_path_first (command : string) (args : args_param)
    (options : option loc) (w : world) :
  startsWith command "calibredb" = true →
  (∀ l, options_ref args options = Some l → allocated (heap w) l) →
  let supplied := supplied_options (heap w) args options in
  wf_object supplied → plain_keys supplied →
  ∃ opts,
    spawned (run command args options w).2
    = spawned w ++
      [(execString command (supplied_args args)
          (("libraryPath",
            default (VStr (library (self w))) (obj_get "libraryPath" supplied))
           :: filter (fun kv => kv.1 ≠ "libraryPath") supplied),
        opts)].
Proof.
  intros Hcal Hopts. cbv zeta. intros Hwf Hplain.
  destruct (run_wp command args options w)
    as (cmd & opts & _ & Hsp & _ & _ & _ & Hcmd & _).
  exists opts. rewrite Hsp, Hcmd by done.
  unfold with_defaults. rewrite Hcal.
  rewrite assign_from_merged; [| apply NoDup_singleton | done | done].
  unfold merged_over, override. simpl.
  do 5 f_equal. apply list_filter_iff. intros kv.
  unfold keys. simpl. by rewrite list_elem_of_singleton.
Qed.

Lemma perform_spawns (c : call) (w : world) :
  wp (perform c) w (fun _ w' =>
    ∃ cmd opts,
      spawned w' = spawned w ++ [(cmd, opts)] ∧
      ∀ command options, c = CallExec command options → cmd = command).
Proof.
  destruct c as [command options | command args options | input format options];
    simpl.
  - eapply wp_mono; [apply exec_wp |].
    intros r w' (opts & _ & Hsp & _). exists command, opts.
    split; [done |]. by intros ? ? [= -> _].
  - eapply wp_mono; [apply run_wp |].
    intros r w' (cmd & opts & _ & Hsp & _). by exists cmd, opts.
  - unfold ebookConvert. apply wp_bind.
    eapply wp_mono; [apply run_wp |].
    intros r w' (cmd & opts & _ & Hsp & _). apply wp_ret. by exists cmd, opts.
Qed.

(** X9: for calls whose parameters are sequences or mappings, or are
    left out, a sequence of calls hands the host one command per call,
    in the order of the calls and after the commands it had been handed
    before; the command of an [exec] call is the string it was given. *)
Theorem calls_spawn_one_command_each (calls : list call) (w : world) :
  let w' := (perform_all calls w).2 in
  ∃ new,
    spawned w' = spawned w ++ new ∧ length new = length calls ∧
    ∀ i command options,
      calls !! i = Some (CallExec command options) →
      ∃ opts, new !! i = Some (command, opts).
Proof.
  cbv zeta.
  assert (Hwp : wp (perform_all calls) w (fun _ w' =>
            ∃ new, spawned w' = spawned w ++ new ∧ length new = length calls ∧
              ∀ i command options,
                calls !! i = Some (CallExec command options) →
                ∃ opts, new !! i = Some (command, opts))).
  { revert w. induction calls as [|c calls IH]; intros w; simpl.
    - apply wp_ret. exists []. by rewrite app_nil_r.
    - apply wp_bind. eapply wp_mono; [apply perform_spawns |].
      intros r w1 (cmd & opts & Hsp1 & Hexec). apply wp_bind.
      eapply wp_mono; [apply IH |].
      intros rs w2 (new & Hsp2 & Hnew & Hnth). apply wp_ret.
      exists ((cmd, opts) :: new).
      split; [by rewrite Hsp2, Hsp1, <- (assoc_L (++)) |].
      split; [simpl; by f_equal |].
      intros [|i] command options Hi; simpl in *.
      + injection Hi as ->. exists opts. by rewrite (Hexec command options).
      + by apply (Hnth i command options). }
  exact Hwp.
Qed.

(** X10: the promise of [run] settles as the callback of [exec] decides
    on the host's answer to the serialized command; [ebookConvert]
    rejects whenever that callback rejects, also when the host reports
    no error and only standard error has text. *)
Theorem run_settles_as_exec (command : string) (args : args_param)
    (input format : string) (options : option loc) (w : world) :
  (run command args options w).1
  = callback (host_answer (spawned (run command args options w).2)) ∧
  (ebookConvert input format options w).1
  = match callback (host_answer (spawned (ebookConvert input format options w).2)) with
    | Resolved _ => Resolved (input +:+ "." +:+ format)
    | Rejected e => Rejected e
    end.
Proof.
  split.
  - destruct (run_wp command args options w) as (cmd & opts & Hr & Hsp & _).
    by rewrite Hsp, Hr.
  - unfold ebookConvert, mbind, M_bind, mret, M_ret.
    destruct (run_wp "ebook-convert"
                (ArgsArray [VStr input; VStr (input +:+ "." +:+ format)]) options w)
      as (cmd & opts & Hr & Hsp & _).
    destruct (run _ _ _ w) as [r w']. simpl in *. by rewrite Hsp, Hr.
Qed.

End MoreProperties.

(** X11: the constructor changes no object of the store; the default
    execution options are a new object each time, so two instances made
    without execution options do not share them. *)
Theorem constructor_default_options_fresh (first second : option ConstructorOptions)
    (h : gmap loc object) :
  first ≫= opt_execOptions = None →
  second ≫= opt_execOptions = None →
  let '(a, h1) := constructor first h in
  let '(b, h2) := constructor second h1 in
  h ⊆ h1 ∧ h1 ⊆ h2 ∧
  execOptions a ≠ execOptions b ∧
  h2 !! execOptions a = Some [("maxBuffer", VNum 2048000)] ∧
  h2 !! execOptions b = Some [("maxBuffer", VNum 2048000)].
Proof.
  intros Hfirst Hsecond.
  destruct (constructor first h) as [a h1] eqn:E1.
  destruct (constructor second h1) as [b h2] eqn:E2.
  destruct (constructor_default first h Hfirst) as [Ha Hh1].
  destruct (constructor_default second h1 Hsecond) as [Hb Hh2].
  rewrite E1 in Ha, Hh1. rewrite E2 in Hb, Hh2. simpl in *.
  assert (Hin : h1 !! execOptions a = Some [("maxBuffer", VNum 2048000)]).
  { rewrite Hh1, Ha. apply lookup_insert_eq. }
  assert (Hne : execOptions a ≠ execOptions b).
  { intros E. rewrite E, Hb, fresh_unallocated in Hin. done. }
  split; [rewrite Hh1; apply insert_subseteq, fresh_unallocated |].
  split; [rewrite Hh2; apply insert_subseteq, fresh_unallocated |].
  split; [done |]. split.
  - rewrite Hh2, lookup_insert_ne; [done | rewrite <- Hb; by intros E].
  - rewrite Hh2, Hb. apply lookup_insert_eq.
Qed.

Section Composition.
Context `{Lib} `{ProcessHost}.

(** X12: the logging flag changes what is printed and nothing else: two
    instances that differ in that flag only hand the host the same
    commands with the same options, and settle alike. *)
Theorem logging_changes_nothing_else (command : string) (args : args_param)
    (options : option loc) (w1 w2 : world) :
  heap w1 = heap w2 → spawned w1 = spawned w2 →
  execOptions (self w1) = execOptions (self w2) →
  library (self w1) = library (self w2) →
  allocated (heap w1) (execOptions (self w1)) →
  (∀ l, options_ref args options = Some l → allocated (heap w1) l) →
  spawned (run command args options w1).2 = spawned (run command args options w2).2 ∧
  (run command args options w1).1 = (run command args options w2).1.
Proof.
  intros Hheap Hsp Heo Hlib Halloc Hopts.
  destruct (run_wp command args options w1)
    as (c1 & o1 & Hr1 & Hsp1 & _ & _ & _ & Hc1 & Ho1).
  destruct (run_wp command args options w2)
    as (c2 & o2 & Hr2 & Hsp2 & _ & _ & _ & Hc2 & Ho2).
  rewrite <- Hheap, <- Heo in Ho2. rewrite <- Hheap in Hc2.
  assert (Hc : c1 = c2).
  { rewrite Hc1, Hc2 by done. unfold with_defaults. by rewrite Hlib. }
  assert (Ho : o1 = o2) by (by rewrite Ho1, Ho2).
  rewrite Hr1, Hr2, Hsp1, Hsp2, Hsp, Hc, Ho. done.
Qed.

(** X13: the options of one call of [exec] are gone at the next: after
    a call with options, a call without hands the host the options of
    the instance, as they were. *)
Theorem exec_options_last_one_call (first second : string) (options : loc)
    (w : world) :
  allocated (heap w) (execOptions (self w)) →
  allocated (heap w) options →
  let instance := deref (heap w) (execOptions (self w)) in
  wf_object instance → plain_keys instance →
  let w1 := (exec first (Some options) w).2 in
  ∃ opts,
    spawned (exec second None w1).2
    = spawned w ++ [(first, opts); (second, instance)].
Proof.
  intros Heo Hopt. cbv zeta. intros Hwf Hplain.
  destruct (exec_wp first (Some options) w)
    as (opts & _ & Hsp1 & _ & Hself1 & Hsub1 & _).
  destruct (exec_wp second None (exec first (Some options) w).2)
    as (opts2 & _ & Hsp2 & _ & _ & _ & Hopts2).
  assert (Hinstance : opts2 = deref (heap w) (execOptions (self w))).
  { rewrite Hopts2.
    - rewrite Hself1, (deref_subseteq _ _ _ Hsub1 Heo). simpl.
      rewrite (assign_from_merged [] _) by (try done; apply NoDup_nil_2).
      apply merged_over_empty_target.
    - rewrite Hself1. by eapply allocated_subseteq.
    - done. }
  exists opts. by rewrite Hsp2, Hsp1, <- (assoc_L (++)), Hinstance.
Qed.

End Composition.

Section MoreExamples.
#[local] Existing Instance SpecLib.lib.
#[local] Existing Instance Sample.host.

Ltac allocated_here := eexists; vm_compute; reflexivity.
Ltac wf_here := apply (bool_decide_unpack _); vm_compute; exact I.

Lemma execString_tokens_witness :
  execString "calibredb add" [VStr "b.epub"]
    [("authors", VArr [VStr "A"; VStr "B"]); ("dontNotifyGui", VNull)]
  = "calibredb add " +:+ quoted "b.epub" +:+ " --authors " +:+ quoted "A"
      +:+ " --authors " +:+ quoted "B" +:+ " --dont-notify-gui".
Proof.
  rewrite execString_tokens by (repeat constructor). reflexivity.
Defined.

Lemma exec_per_call_options_win_witness :
  ∃ opts,
    spawned (exec "ebook-meta b.epub" (Some 2%positive) Sample2.quiet).2
    = [("ebook-meta b.epub", opts)] ∧
    obj_get "maxBuffer" opts = Some (VNum 1024) ∧
    obj_get "cwd" opts = Some (VStr "/tmp").
Proof.
  destruct (exec_per_call_options_win "ebook-meta b.epub" 2%positive Sample2.quiet)
    as (opts & Hsp & Hget); [allocated_here | allocated_here | wf_here | wf_here |].
  exists opts. split; [exact Hsp |]. split; rewrite Hget; reflexivity.
Defined.

Lemma exec_options_order_witness :
  ∃ opts,
    spawned (exec "ebook-meta b.epub" (Some 2%positive) Sample2.quiet).2
    = [("ebook-meta b.epub", opts)] ∧
    opts = [("maxBuffer", VNum 1024); ("cwd", VStr "/tmp")].
Proof.
  destruct (exec_options_order "ebook-meta b.epub" (Some 2%positive) Sample2.quiet)
    as (opts & Hsp & Hshape & _).
  - allocated_here.
  - intros l [= <-]. allocated_here.
  - wf_here.
  - repeat constructor.
  - wf_here.
  - repeat constructor.
  - exists opts. split; [exact Hsp | exact Hshape].
Defined.

Lemma run_other_command_no_default_witness :
  ∃ opts,
    spawned (run "ebook-meta" (ArgsArray [VStr "b.epub"]) (Some 1%positive)
                 Sample2.loud).2
    = [("ebook-meta " +:+ quoted "b.epub" +:+ " -s " +:+ quoted "title"
          +:+ " --library-path " +:+ quoted "/mine", opts)].
Proof.
  refine (run_other_command_no_default "ebook-meta" (ArgsArray [VStr "b.epub"])
            (Some 1%positive) Sample2.loud _ _).
  - reflexivity.
  - intros l [= <-]. allocated_here.
Defined.

Lemma ebookConvert_command_line_witness :
  ∃ opts,
    spawned (ebookConvert "x.epub" "mobi" (Some 1%positive) Sample2.quiet).2
    = [("ebook-convert " +:+ quoted "x.epub" +:+ " " +:+ quoted "x.epub.mobi"
          +:+ " -s " +:+ quoted "title" +:+ " --library-path " +:+ quoted "/mine",
        opts)].
Proof.
  refine (ebookConvert_command_line "x.epub" "mobi" (Some 1%positive)
            Sample2.quiet _).
  intros l [= <-]. allocated_here.
Defined.

Lemma calibredb_library_path_first_witness :
  ∃ opts,
    spawned (run "calibredb list" ArgsOmitted (Some 1%positive) Sample2.quiet).2
    = [("calibredb list --library-path " +:+ quoted "/mine"
          +:+ " -s " +:+ quoted "title", opts)].
Proof.
  refine (calibredb_library_path_first "calibredb list" ArgsOmitted
            (Some 1%positive) Sample2.quiet _ _ _ _).
  - reflexivity.
  - intros l [= <-]. allocated_here.
  - wf_here.
  - repeat constructor.
Defined.

Lemma constructor_default_options_fresh_witness :
  let '(a, h1) := constructor None Sample2.store in
  let '(b, h2) := constructor None h1 in
  Sample2.store ⊆ h1 ∧ h1 ⊆ h2 ∧
  execOptions a ≠ execOptions b ∧
  h2 !! execOptions a = Some [("maxBuffer", VNum 2048000)] ∧
  h2 !! execOptions b = Some [("maxBuffer", VNum 2048000)].
Proof.
  refine (constructor_default_options_fresh None None Sample2.store _ _);
    reflexivity.
Defined.

Lemma logging_changes_nothing_else_witness :
  spawned (run "calibredb list" (ArgsObject 1%positive) None Sample2.loud).2
  = spawned (run "calibredb list" (ArgsObject 1%positive) None Sample2.quiet).2 ∧
  (run "calibredb list" (ArgsObject 1%positive) None Sample2.loud).1
  = (run "calibredb list" (ArgsObject 1%positive) None Sample2.quiet).1.
Proof.
  refine (logging_changes_nothing_else "calibredb list" (ArgsObject 1%positive)
            None Sample2.loud Sample2.quiet _ _ _ _ _ _); try reflexivity.
  - allocated_here.
  - intros l [= <-]. allocated_here.
Defined.

Lemma exec_options_last_one_call_witness :
  ∃ opts,
    spawned (exec "ebook-meta b.epub" None
               (exec "ebook-meta a.epub" (Some 2%positive) Sample2.quiet).2).2
    = [("ebook-meta a.epub", opts);
       ("ebook-meta b.epub", [("maxBuffer", VNum 2048000)])].
Proof.
  refine (exec_options_last_one_call "ebook-meta a.epub" "ebook-meta b.epub"
            2%positive Sample2.quiet _ _ _ _).
  - allocated_here.
  - allocated_here.
  - wf_here.
  - repeat constructor.
Defined.

Lemma calls_spawn_one_command_each_witness :
  ∃ new opts,
    spawned (perform_all [CallRun "calibredb list" (ArgsObject 1%positive) None;
                          CallExec "ebook-meta b.epub" (Some 2%positive);
                          CallEbookConvert "x.epub" "mobi" None]
                         Sample2.quiet).2 = new ∧
    length new = 3 ∧ new !! 1 = Some ("ebook-meta b.epub", opts).
Proof.
  destruct (calls_spawn_one_command_each
              [CallRun "calibredb list" (ArgsObject 1%positive) None;
               CallExec "ebook-meta b.epub" (Some 2%positive);
               CallEbookConvert "x.epub" "mobi" None] Sample2.quiet)
    as (new & Hsp & Hlen & Hnth).
  destruct (Hnth 1 "ebook-meta b.epub" (Some 2%positive) eq_refl) as [opts Hopts].
  exists new, opts. split; [exact Hsp |]. split; [exact Hlen | exact Hopts].
Defined.

End MoreExamples.
